(** * Wunderbaum: tree traversal, row renumbering and the filter extension

    A shallow embedding of
    - [WunderbaumNode] and [Wunderbaum] (bundled build: visit, visitParents,
      visitRows, _visitRowsUp, renumber, render, setExpanded), and
    - [FilterExtension] (wb_ext_filter.ts: _applyFilterImpl, filterNodes,
      filterBranches, clearFilter, _markFuzzyMatchedChars),
    followed by the properties the specification states about them.

    Node objects are addressed by their position: a reference is the list of
    child indices leading to the node, innermost index first, so that the
    parent of [i :: p] is [p] and the invisible system root is [[]].  The
    child arrays do not change during any of the operations below; the
    mutable fields of the node objects live in a store indexed by
    references. *)

From Stdlib Require Import String Ascii NArith ZArith QArith Lia Lqa Sorted.
From stdpp Require Import base list strings gmap.

Open Scope nat_scope.
Open Scope list_scope.

(** ** JavaScript strings and arrays *)

Module Js.

(** A string is a sequence of UTF-16 code units. *)
Abbreviation char := N (only parsing).
Abbreviation jsstring := (list N) (only parsing).

Definition lit (s : string) : jsstring :=
  map N_of_ascii (list_ascii_of_string s).

(** [!s]: the empty string is the only falsy string. *)
Definition falsyString (s : jsstring) : bool :=
  match s with [] => true | _ => false end.

(** An array of strings; [None] is a hole or [undefined]. *)
Abbreviation jsarray := (list (option (list N))) (only parsing).

Definition undefinedText : jsstring := lit "undefined".

(** [a[i]] used as an operand of [+] with strings. *)
Definition readAsText (a : jsarray) (i : nat) : jsstring :=
  match a !! i with
  | Some (Some s) => s
  | _ => undefinedText
  end.

(** [a[i] = x]: inside the array the slot is replaced, past its end the
    array grows, leaving holes before the new element. *)
Definition writeAt (a : jsarray) (i : nat) (x : jsstring) : jsarray :=
  if i <? length a then <[i := Some x]> a
  else a ++ replicate (i - length a) None ++ [Some x].

(** [a.join("")]: holes and [undefined] contribute nothing. *)
Definition join (a : jsarray) : jsstring :=
  concat (map (from_option id []) a).

(** [text.split("")] *)
Definition split (text : jsstring) : jsarray :=
  map (fun c => Some [c]) text.

End Js.

Import Js.

(** ** Services of util.ts and of the regular expression engine

    wb_ext_filter.ts imports [escapeHtml] and [extractHtmlText] from util.ts
    and matches with [new RegExp(.., "i")].  Neither util.ts nor the
    engine's case folding table are part of the sources, so they are taken
    as parameters. *)

Class Runtime := {
  (** canonical form of a code unit under the [i] flag *)
  canonicalize : char -> char;
  escapeHtml : jsstring -> jsstring;
  extractHtmlText : jsstring -> jsstring;
}.

(** Case folding restricted to the ASCII letters, and the usual entity
    table, for running the model on examples. *)
Definition asciiUpper (c : char) : char :=
  if ((97 <=? c) && (c <=? 122))%N then (c - 32)%N else c.

Definition escapeEntity (c : char) : jsstring :=
  if (c =? 38)%N then lit "&amp;"
  else if (c =? 60)%N then lit "&lt;"
  else if (c =? 62)%N then lit "&gt;"
  else if (c =? 34)%N then lit "&quot;"
  else if (c =? 39)%N then lit "&#39;"
  else [c].

Definition asciiRuntime : Runtime := {|
  canonicalize := asciiUpper;
  escapeHtml := fun s => concat (map escapeEntity s);
  extractHtmlText := fun s => s;
|}.

(** ** Matching a title (wb_ext_filter.ts, lines 88-107) *)

Section Matching.
Context {R : Runtime}.

Definition sameChar (a b : char) : bool :=
  (canonicalize a =? canonicalize b)%N.

(** [span p l]: the longest prefix of [l] satisfying [p], and the rest. *)
Fixpoint span (p : char -> bool) (l : jsstring) : jsstring * jsstring :=
  match l with
  | [] => ([], [])
  | c :: l' =>
      if p c then let '(g, r) := span p l' in (c :: g, r) else ([], l)
  end.

(** For the characters [c1 c2 ...] of the query the fuzzy pattern is, for
    each [ck] in turn, a capture group of any number of code units other
    than [ck], followed by [ck] itself.  Attempted at the head of [text],
    group [k] greedily takes every code unit that is not [ck]; the next
    code unit then has to be [ck].  (A shorter group would be followed by a code
    unit of the group, never by [ck], so the engine's backtracking has
    no other choice.)  The result is the list of captured groups and the
    unconsumed rest. *)
Fixpoint matchGroups (query text : jsstring)
  : option (list jsstring * jsstring) :=
  match query with
  | [] => Some ([], text)
  | c :: query' =>
      let '(g, r) := span (fun x => negb (sameChar x c)) text in
      match r with
      | [] => None
      | _ :: r' =>
          match matchGroups query' r' with
          | Some (gs, rest) => Some (g :: gs, rest)
          | None => None
          end
      end
  end.

(** [text.match(re)] for the fuzzy pattern: the first start position at
    which the pattern matches; the result array holds the matched text
    followed by the groups. *)
Fixpoint fuzzyExec (query text : jsstring) : option (list jsstring) :=
  match matchGroups query text with
  | Some (gs, rest) => Some (take (length text - length rest) text :: gs)
  | None =>
      match text with
      | [] => None
      | _ :: text' => fuzzyExec query text'
      end
  end.

(** Does [text] start with [query], ignoring case? *)
Fixpoint startsWith (query text : jsstring) : bool :=
  match query, text with
  | [], _ => true
  | _ :: _, [] => false
  | q :: query', c :: text' => sameChar q c && startsWith query' text'
  end.

(** [text.match(re)] for the escaped literal pattern: the first
    occurrence of [query], ignoring case. *)
Fixpoint literalExec (query text : jsstring) : option (list jsstring) :=
  if startsWith query text then Some [take (length query) text]
  else match text with
       | [] => None
       | _ :: text' => literalExec query text'
       end.

(** [text.replace(reHighlight, s => open + s + close)] with the global,
    case-insensitive literal pattern: occurrences are replaced from left
    to right and do not overlap.  [pending] counts the code units of the
    current occurrence that are still to be copied. *)
Fixpoint wrapOccurrences (query open close : jsstring) (pending : nat)
    (text : jsstring) : jsstring :=
  match text with
  | [] => []
  | c :: text' =>
      match pending with
      | S (S k) => c :: wrapOccurrences query open close (S k) text'
      | 1 => c :: close ++ wrapOccurrences query open close 0 text'
      | 0 =>
          if startsWith query text then
            match length query with
            | 0 => c :: wrapOccurrences query open close 0 text'
            | 1 => open ++ c :: close
                     ++ wrapOccurrences query open close 0 text'
            | S n => open ++ c :: wrapOccurrences query open close n text'
            end
          else c :: wrapOccurrences query open close 0 text'
      end
  end.

End Matching.

(** ** Marking fuzzy matches (wb_ext_filter.ts, lines 21-24 and 329-364) *)

Definition START_MARKER : jsstring := [65527%N].
Definition END_MARKER : jsstring := [65528%N].
Definition MARK_OPEN : jsstring := lit "<mark>".
Definition MARK_CLOSE : jsstring := lit "</mark>".

(** [matchingIndices[matchingIndices.length - 1] || 0] *)
Definition lastOrZero (l : list nat) : nat := List.last l 0.

(** The loop over [matches] from index 1 on; [groups] is what is left of
    the array and [k] the index of its head. *)
Fixpoint collectIndices (groups : list jsstring) (k : nat)
    (matchingIndices : list nat) : list nat :=
  match groups with
  | [] => matchingIndices
  | g :: groups' =>
      let _mIdx :=
        length g + (if k =? 1 then 0 else 1) + lastOrZero matchingIndices in
      collectIndices groups' (S k) (matchingIndices ++ [_mIdx])
  end.

Definition matchingIndicesOf (matches : list jsstring) : list nat :=
  collectIndices (drop 1 matches) 1 [].

Definition wrapAt (open close : jsstring) (textPoses : jsarray) (v : nat)
    : jsarray :=
  writeAt textPoses v (open ++ readAsText textPoses v ++ close).

Definition _markFuzzyMatchedChars (text : jsstring) (matches : list jsstring)
    (escapeTitles : bool) : jsstring :=
  let matchingIndices := matchingIndicesOf matches in
  let textPoses := split text in
  let textPoses :=
    if escapeTitles
    then foldl (wrapAt START_MARKER END_MARKER) textPoses matchingIndices
    else foldl (wrapAt MARK_OPEN MARK_CLOSE) textPoses matchingIndices in
  join textPoses.


(** ** Nodes (bundled build, class WunderbaumNode) *)

(** The immutable part of a node object: its data and its child array
    ([None] is [children == null], [Some []] an empty array). *)
#[local] Unset Elimination Schemes.
Inductive node : Type :=
  MkNode (key : string) (title : jsstring) (lazy : bool)
         (statusNodeType : string) (children : option (list node)).
#[local] Set Elimination Schemes.

Definition key (n : node) : string := let 'MkNode k _ _ _ _ := n in k.
Definition title (n : node) : jsstring := let 'MkNode _ t _ _ _ := n in t.
Definition lazy (n : node) : bool := let 'MkNode _ _ l _ _ := n in l.
Definition statusNodeType (n : node) : string :=
  let 'MkNode _ _ _ s _ := n in s.
Definition children (n : node) : option (list node) :=
  let 'MkNode _ _ _ _ c := n in c.

(** The child array read as a list; [null] has no elements. *)
Definition kids (n : node) : list node := from_option id [] (children n).

(** A reference to a node object: child indices, innermost first. *)
Abbreviation ref := (list nat) (only parsing).

Definition child (n : node) (i : nat) : option node := kids n !! i.

Fixpoint getNode (top : node) (p : ref) : option node :=
  match p with
  | [] => Some top
  | i :: p' =>
      match getNode top p' with
      | Some n => child n i
      | None => None
      end
  end.

(** A JavaScript number as far as [subMatchCount] needs it. *)
Inductive num := Num (n : nat) | NaN.


Definition truthyNum (x : option num) : bool :=
  match x with
  | Some (Num (S _)) => true
  | _ => false
  end.

Definition truthyFlag (x : option bool) : bool :=
  match x with
  | Some true => true
  | _ => false
  end.

(** The row element of a node, as [render] builds it. *)
Inductive titleContent :=
| TextContent (s : jsstring)
| HtmlContent (s : jsstring).

Record rowElem := {
  className : list string;
  styleTop : nat;          (* px *)
  indents : nat;           (* number of wb-indent elements *)
  expanderClass : string;
  titleElem : titleContent;
}.

(** The mutable fields of a node object.  An absent property is [None]
    (or [false] for the two flags of the filter that are only tested for
    truth). *)
Record nodeState := {
  expanded : bool;
  selected : bool;
  match_ : option bool;
  subMatchCount : option num;
  titleWithHighlight : option jsstring;
  _rowIdx : nat;
  _rowElem : option rowElem;
  _filterAutoExpanded : bool;
  subMatchBadge : bool;
}.

Definition setExpandedFlag (b : bool) (x : nodeState) : nodeState :=
  {| expanded := b; selected := selected x; match_ := match_ x;
     subMatchCount := subMatchCount x;
     titleWithHighlight := titleWithHighlight x; _rowIdx := _rowIdx x;
     _rowElem := _rowElem x; _filterAutoExpanded := _filterAutoExpanded x;
     subMatchBadge := subMatchBadge x |}.




Definition setRowIdx (i : nat) (x : nodeState) : nodeState :=
  {| expanded := expanded x; selected := selected x; match_ := match_ x;
     subMatchCount := subMatchCount x;
     titleWithHighlight := titleWithHighlight x; _rowIdx := i;
     _rowElem := _rowElem x; _filterAutoExpanded := _filterAutoExpanded x;
     subMatchBadge := subMatchBadge x |}.

Definition setRowElem (e : option rowElem) (x : nodeState) : nodeState :=
  {| expanded := expanded x; selected := selected x; match_ := match_ x;
     subMatchCount := subMatchCount x;
     titleWithHighlight := titleWithHighlight x; _rowIdx := _rowIdx x;
     _rowElem := e; _filterAutoExpanded := _filterAutoExpanded x;
     subMatchBadge := subMatchBadge x |}.




(** The constructor's values. *)
Definition newNodeState : nodeState :=
  {| expanded := false; selected := false; match_ := Some false;
     subMatchCount := Some (Num 0); titleWithHighlight := None;
     _rowIdx := 0; _rowElem := None; _filterAutoExpanded := false;
     subMatchBadge := false |}.

Abbreviation store := (list nat -> nodeState) (only parsing).

Definition ref_eqb (p q : ref) : bool := bool_decide (p = q).

(** Assignment to fields of the object at [p]. *)
Definition update (p : ref) (f : nodeState -> nodeState) (st : store)
    : store :=
  fun q => if ref_eqb q p then f (st q) else st q.

(** Traversal callbacks answer [false], ["skip"] or anything else. *)
Inductive ctl := RFalse | RSkip | ROther.

(** The loop over a child array with its [break] on [false]; [res] is the
    value of the variable [res] before the loop. *)
Fixpoint forChildren {A St : Type} (body : nat -> A -> St -> ctl * St)
    (l : list A) (i : nat) (res : ctl) (s : St) : ctl * St :=
  match l with
  | [] => (res, s)
  | c :: l' =>
      let '(r, s') := body i c s in
      match r with
      | RFalse => (RFalse, s')
      | _ => forChildren body l' (S i) r s'
      end
  end.

Module WunderbaumNode.

Definition isStatusNode (n : node) : bool :=
  negb (String.eqb (statusNodeType n) "").

(** [hasChildren()]: [None] stands for [undefined], "not sure". *)
Definition hasChildren (n : node) : option bool :=
  if lazy n then
    match children n with
    | None => None
    | Some [] => Some false
    | Some [c] => if isStatusNode c then None else Some true
    | Some _ => Some true
    end
  else Some (match children n with
             | Some (_ :: _) => true
             | _ => false
             end).

(** [isExpandable()] returns [this.children]; its truth value. *)
Definition isExpandable (n : node) : bool :=
  match children n with Some _ => true | None => false end.

Definition getLevel (self : ref) : nat := length self.

(** [visit(callback, includeSelf)] on the node [n] at [self]. *)
Fixpoint visit {St : Type} (callback : ref -> node -> St -> ctl * St)
    (n : node) (self : ref) (includeSelf : bool) (s : St) : ctl * St :=
  match n with
  | MkNode _ _ _ _ ch =>
      let loop res s :=
        match ch with
        | Some l =>
            forChildren (fun i c => visit callback c (i :: self) true)
                        l 0 res s
        | None => (res, s)
        end in
      if includeSelf then
        let '(res, s) := callback self n s in
        match res with
        | ROther => loop res s
        | _ => (res, s)
        end
      else loop ROther s
  end.

(** The [while (p)] loop of [visitParents], started at the parent of
    [self]. *)
Fixpoint parentsLoop {St : Type} (callback : ref -> St -> ctl * St)
    (self : ref) (s : St) : bool * St :=
  match self with
  | [] => (true, s)
  | _ :: p =>
      let '(r, s') := callback p s in
      match r with
      | RFalse => (false, s')
      | _ => parentsLoop callback p s'
      end
  end.

(** [visitParents(callback, includeSelf)] *)
Definition visitParents {St : Type} (callback : ref -> St -> ctl * St)
    (self : ref) (includeSelf : bool) (s : St) : bool * St :=
  if includeSelf then
    let '(r, s') := callback self s in
    match r with
    | RFalse => (false, s')
    | _ => parentsLoop callback self s'
    end
  else parentsLoop callback self s.

(** The loop of [visitSiblings] over the array [ac] of the parent, from
    index [i] on; [idx] is the index of [this] in that array, so that
    [n !== this] holds for every other index. *)
Fixpoint siblingsFrom {St : Type} (callback : ref -> node -> St -> ctl * St)
    (parent : ref) (idx : nat) (includeSelf : bool) (ac : list node) (i : nat)
    (s : St) : bool * St :=
  match ac with
  | [] => (true, s)
  | n :: ac' =>
      if includeSelf || negb (i =? idx) then
        let '(r, s') := callback (i :: parent) n s in
        match r with
        | RFalse => (false, s')
        | _ => siblingsFrom callback parent idx includeSelf ac' (S i) s'
        end
      else siblingsFrom callback parent idx includeSelf ac' (S i) s
  end.

(** [visitSiblings(callback, includeSelf)] on the node at [self] in the
    tree below [top].  The system root has no parent, and reading
    [this.parent.children] throws a TypeError: [None]. *)
Definition visitSiblings {St : Type}
    (callback : ref -> node -> St -> ctl * St) (top : node) (self : ref)
    (includeSelf : bool) (s : St) : option (bool * St) :=
  match self with
  | [] => None
  | idx :: parent =>
      Some (siblingsFrom callback parent idx includeSelf
              (from_option kids [] (getNode top parent)) 0 s)
  end.

End WunderbaumNode.

(** ** The tree (bundled build, class Wunderbaum) and what the filter
    extension keeps on it *)

(** A filter callback answers falsy, truthy, ["skip"] or ["branch"].  It is
    a function of the node it is given (its position and data). *)
Inductive filterResult := FFalse | FTrue | FSkip | FBranch.

Definition NodeFilterCallback := ref -> node -> filterResult.

Inductive filterArg :=
| FilterText (text : jsstring)
| FilterCallback (f : NodeFilterCallback).

Inductive filterModeType := ModeHide | ModeDim.

(** The options of the extension that the code below reads. *)
Record filterOptions := {
  autoApply : bool;
  autoExpand : bool;
  fuzzy : bool;
  hideExpanders : bool;
  highlight : bool;
  leavesOnly : bool;
  mode : filterModeType;
  noData : bool;
}.

(** The defaults of the constructor (wb_ext_filter.ts, lines 31-42). *)
Definition defaultFilterOptions : filterOptions :=
  {| autoApply := true; autoExpand := false; fuzzy := false;
     hideExpanders := false; highlight := true; leavesOnly := false;
     mode := ModeHide; noData := true |}.

(** The [_opts] argument: the options a call overrides. *)
Record filterOverrides := {
  autoApply' : option bool;
  autoExpand' : option bool;
  fuzzy' : option bool;
  hideExpanders' : option bool;
  highlight' : option bool;
  leavesOnly' : option bool;
  mode' : option filterModeType;
  noData' : option bool;
}.



Inductive NodeStatusType := StatusOk | StatusLoading | StatusError
                          | StatusNoData.

Record tree := {
  root : node;  (* the invisible system root with the child arrays below it *)
  nodes : store;  (* the node objects' fields *)
  activeNode : option ref;
  enableFilter : bool;
  _enableUpdate : bool;
  listHeight : nat;  (* nodeListElement.style.height, px *)
  redraws : nat;  (* viewport refreshes issued by enableUpdate *)
  escapeTitles : bool;  (* options.escapeTitles *)
  autoCollapse : bool;  (* options.autoCollapse *)
  filterDefaults : filterOptions;  (* options.filter *)
  filterMode : option filterModeType;
  lastFilterArgs : option (filterArg * bool * filterOverrides);
  classList : gset string;  (* element.classList *)
  status : NodeStatusType;  (* set by setStatus *)
}.

Definition setNodes (v : store) (t : tree) : tree :=
  {| root := root t; nodes := v; activeNode := activeNode t;
     enableFilter := enableFilter t; _enableUpdate := _enableUpdate t;
     listHeight := listHeight t; redraws := redraws t;
     escapeTitles := escapeTitles t; autoCollapse := autoCollapse t;
     filterDefaults := filterDefaults t; filterMode := filterMode t;
     lastFilterArgs := lastFilterArgs t; classList := classList t;
     status := status t |}.


Definition setListHeight (v : nat) (t : tree) : tree :=
  {| root := root t; nodes := nodes t; activeNode := activeNode t;
     enableFilter := enableFilter t; _enableUpdate := _enableUpdate t;
     listHeight := v; redraws := redraws t; escapeTitles := escapeTitles t;
     autoCollapse := autoCollapse t; filterDefaults := filterDefaults t;
     filterMode := filterMode t; lastFilterArgs := lastFilterArgs t;
     classList := classList t; status := status t |}.









(** The result of a method that may throw, or whose loop is run with
    fuel. *)
Inductive outcome (X : Type) :=
| Returned (x : X)
| Threw
| OutOfFuel.
Arguments Returned {X} x.
Arguments Threw {X}.
Arguments OutOfFuel {X}.

(** [idx < start] on JavaScript numbers; the bounds of a range need not be
    integers (updateViewport divides the scroll offset by the row
    height). *)
Definition ltNum (a b : Q) : bool := negb (Qle_bool b a).

Definition ofIdx (i : nat) : Q := inject_Z (Z.of_nat i).

Record renderRange := {
  startIdx : option Q;
  endIdx : option Q;
}.

Record visitRowsOpts := {
  start : option ref;
  reverse : bool;
  includeSelf : bool;
  includeHidden : bool;
}.

(** [opts] left out: [{start: First top node, reverse: false,
    includeSelf: true, includeHidden: false}]. *)
Definition defaultRowsOpts : visitRowsOpts :=
  {| start := None; reverse := false; includeSelf := true;
     includeHidden := false |}.

Definition ROW_HEIGHT : nat := 16.

(** [withLast k d l i]: [k] applied to the last element of the array [l]
    and its index, counting from [i]; [d] for the empty array. *)
Fixpoint withLast {A B : Type} (k : nat -> A -> B) (d : B) (l : list A)
    (i : nat) : B :=
  match l with
  | [] => d
  | c :: l' =>
      match l' with
      | [] => k i c
      | _ :: _ => withLast k d l' (S i)
      end
  end.

Module Wunderbaum.

Import WunderbaumNode.

(** The node object a reference denotes.  References are only ever taken
    from the tree itself; a dangling one reads as an empty node. *)
Definition nodeAt (t : tree) (p : ref) : node :=
  default (MkNode "" [] false "" None) (getNode (root t) p).

Definition modify (p : ref) (f : nodeState -> nodeState) (t : tree) : tree :=
  setNodes (update p f (nodes t)) t.

(** [!node.match && !node.subMatchCount] *)
Definition filteredOut (t : tree) (p : ref) : bool :=
  negb (truthyFlag (match_ (nodes t p)))
  && negb (truthyNum (subMatchCount (nodes t p))).

(** [node.render(opts)]: build the row element, or refresh the existing
    one; the element is attached to the node on first creation. *)
Definition render (self : ref) (t : tree) : tree :=
  let n := nodeAt t self in
  let x := nodes t self in
  let rowClasses :=
    ["wb-row"%string]
    ++ (if expanded x then ["wb-expanded"%string] else [])
    ++ (if lazy n then ["wb-lazy"%string] else [])
    ++ (if selected x then ["wb-selected"%string] else [])
    ++ (if bool_decide (activeNode t = Some self)
        then ["wb-active"%string] else []) in
  let expander :=
    if isExpandable n then
      if expanded x then "wb-expander bi bi-dash-square"%string
      else "wb-expander bi bi-plus-square"%string
    else "wb-indent"%string in
  let rowDiv :=
    {| className := rowClasses;
       styleTop := _rowIdx x * 16;
       indents := match _rowElem x with
                  | Some e => indents e
                  | None => getLevel self
                  end;
       expanderClass := expander;
       titleElem := TextContent (title n) |} in
  modify self (setRowElem (Some rowDiv)) t.

(** [setDirty(hint)] *)
Definition setDirty (self : ref) (t : tree) : tree := render self t.

(** [node.setExpanded(flag)] *)
Definition setExpanded (self : ref) (flag : bool) (t : tree) : tree :=
  setDirty self (modify self (setExpandedFlag flag) t).



(** [tree.visit(callback)] *)
Definition visit {St : Type} (callback : ref -> node -> St -> ctl * St)
    (top : node) (s : St) : ctl * St :=
  WunderbaumNode.visit callback top [] false s.


Section Rows.
Context {A : Type}.

(** Callbacks of the row traversals see the tree and the variables [A]
    they close over. *)
Definition rowCallback := ref -> node -> tree * A -> ctl * (tree * A).

Variable callback : rowCallback.
Variable includeHidden : bool.

Definition checkFilter (t : tree) : bool :=
  negb includeHidden && enableFilter t.

(** The function handed to [node.visit] inside [visitRows]. *)
Definition visitRowsInner (p : ref) (n : node) (s : tree * A)
    : ctl * (tree * A) :=
  if checkFilter (fst s) && filteredOut (fst s) p then (RSkip, s)
  else
    let '(r, s') := callback p n s in
    match r with
    | RFalse => (RFalse, s')
    | _ =>
        if negb includeHidden && isExpandable n
           && negb (expanded (nodes (fst s') p))
        then (RSkip, s')
        else (ROther, s')
    end.

(** The [for] loop over [siblings] from index [i] on; [l] is the rest of
    the array.  Returns whether the traversal goes on, and the variable
    [skipFirstNode]. *)
Fixpoint siblingsLoop (parent : ref) (l : list node) (i : nat)
    (skipFirstNode : bool) (s : tree * A) : bool * bool * (tree * A) :=
  match l with
  | [] => (true, skipFirstNode, s)
  | n :: l' =>
      let p := i :: parent in
      if checkFilter (fst s) && filteredOut (fst s) p
      then siblingsLoop parent l' (S i) skipFirstNode s
      else
        let '(r, s1) :=
          if skipFirstNode then (ROther, s) else callback p n s in
        match r with
        | RFalse => (false, skipFirstNode, s1)
        | _ =>
            let '(res, s2) :=
              match children n with
              | Some (_ :: _) =>
                  if includeHidden || expanded (nodes (fst s1) p)
                  then WunderbaumNode.visit visitRowsInner n p false s1
                  else (ROther, s1)
              | _ => (ROther, s1)
              end in
            match res with
            | RFalse => (false, false, s2)
            | _ => siblingsLoop parent l' (S i) false s2
            end
        end
  end.

(** The [while (parent)] loop: the siblings from [node] on, then from the
    sibling after its parent, and so on up to the root. *)
Fixpoint parentLoop (node : ref) (siblingOfs : nat) (skipFirstNode : bool)
    (s : tree * A) : bool * (tree * A) :=
  match node with
  | [] => (true, s)
  | idx :: parent =>
      let siblings := kids (nodeAt (fst s) parent) in
      let nextIdx := idx + siblingOfs in
      let '(go, skip, s') :=
        siblingsLoop parent (drop nextIdx siblings) nextIdx skipFirstNode s in
      if go then parentLoop parent 1 skip s' else (false, s')
  end.

(** Modelled from the spec: WunderbaumNode.isVisible, which _visitRowsUp
    calls for [includeHidden = false], is not defined in the sources.
    Section 4.1 gives the visibility rule of the traversals: the children
    of a node whose [expanded] flag is false are pruned, and with an active
    filter a node that is neither a match nor has a non-zero
    [subMatchCount] is pruned with its subtree.  The children of the
    system root are not subject to the root's [expanded] flag. *)
Fixpoint isVisible (t : tree) (self : ref) : bool :=
  match self with
  | [] => true
  | _ :: parent =>
      negb (enableFilter t && filteredOut t self)
      && match parent with
         | [] => true
         | _ :: _ => expanded (nodes t parent) && isVisible t parent
         end
  end.

(** The inner [while] of [_visitRowsUp]: follow the last child down as long
    as the node is open and has children. *)
Fixpoint lastDescendant (st : store) (n : node) (p : ref) : ref :=
  match n with
  | MkNode _ _ _ _ ch =>
      if includeHidden || expanded (st p) then
        match ch with
        | Some l => withLast (fun i c => lastDescendant st c (i :: p)) p l 0
        | None => p
        end
      else p
  end.

(** One round of the [while (true)] loop of [_visitRowsUp]: the node that
    is looked at next, [None] at the first node of the tree ([break]).
    [children[0] === node] holds for the child with index 0. *)
Definition stepUp (t : tree) (node : ref) : outcome (option ref) :=
  match node with
  | [] => Threw
  | 0 :: [] => Returned None
  | 0 :: parent => Returned (Some parent)
  | S i :: parent =>
      match getNode (root t) (i :: parent) with
      | Some n => Returned (Some (lastDescendant (nodes t) n (i :: parent)))
      | None => Threw
      end
  end.

Fixpoint upLoop (fuel : nat) (node : ref) (s : tree * A)
    : outcome (bool * (tree * A)) :=
  match fuel with
  | 0 => OutOfFuel
  | S fuel' =>
      match stepUp (fst s) node with
      | Threw => Threw
      | OutOfFuel => OutOfFuel
      | Returned None => Returned (true, s)
      | Returned (Some node') =>
          if negb includeHidden && negb (isVisible (fst s) node')
          then upLoop fuel' node' s
          else
            let '(r, s') := callback node' (nodeAt (fst s) node') s in
            match r with
            | RFalse => Returned (false, s')
            | _ => Returned (true, s')
            end
      end
  end.

End Rows.

(** [_visitRowsUp(callback, opts)] *)
Definition _visitRowsUp {A : Type} (fuel : nat) (callback : rowCallback)
    (opts : visitRowsOpts) (s : tree * A) : outcome (bool * (tree * A)) :=
  let node := default [0] (start opts) in
  upLoop callback (includeHidden opts) fuel node s.

(** [visitRows(callback, opts)]; [fuel] bounds the loop of the bottom-up
    direction. *)
Definition visitRows {A : Type} (fuel : nat) (callback : rowCallback)
    (opts : visitRowsOpts) (s : tree * A) : outcome (bool * (tree * A)) :=
  match hasChildren (root (fst s)) with
  | Some true =>
      if reverse opts then _visitRowsUp fuel callback opts s
      else
        let node := default [0] (start opts) in
        Returned (parentLoop callback (includeHidden opts) node 0
                             (negb (includeSelf opts)) s)
  | _ => Returned (false, s)
  end.

(** The function [renumber] hands to [visitRows]; it closes over [idx],
    [top] and [modified]. *)
Definition renumberRow (start_ end_ : Q) : @rowCallback (nat * nat * bool) :=
  fun self _ '(t, (idx, top, modified)) =>
    let prevIdx := _rowIdx (nodes t self) in
    let '(t, modified) :=
      if negb (prevIdx =? idx)
      then (modify self (setRowIdx idx) t, true)
      else (t, modified) in
    let t :=
      if ltNum (ofIdx idx) start_ || ltNum end_ (ofIdx idx) then
        match _rowElem (nodes t self) with
        | Some _ => modify self (setRowElem None) t
        | None => t
        end
      else
        match _rowElem (nodes t self) with
        | Some _ => if negb (prevIdx =? idx) then render self t else t
        | None => render self t
        end in
    (ROther, (t, (S idx, top + 16, modified))).

(** [renumber(opts)] *)
Definition renumber (opts : renderRange) (t : tree) : outcome (bool * tree) :=
  match startIdx opts, endIdx opts with
  | Some start_, Some end_ =>
      match kids (root t) !! 1 with
      | None => Threw
      | Some _ =>
          let t := modify [1] (setExpandedFlag true) t in
          match visitRows 0 (renumberRow start_ end_) defaultRowsOpts
                          (t, (0, 0, false)) with
          | Returned (_, (t, (idx, top, modified))) =>
              Returned (modified, setListHeight top t)
          | Threw => Threw
          | OutOfFuel => OutOfFuel
          end
      end
  | _, _ => Threw
  end.




End Wunderbaum.

(** ** The filter extension (wb_ext_filter.ts) *)

Module FilterExtension.

Import WunderbaumNode.

Section Filter.
Context {R : Runtime}.

(** [.replace(RE_START_MARKER, "<mark>").replace(RE_END_MARTKER, "</mark>")] *)
Definition insertMarkTags (s : jsstring) : jsstring :=
  concat (map (fun c => if (c =? 65527)%N then MARK_OPEN
                        else if (c =? 65528)%N then MARK_CLOSE
                        else [c]) s).

(** A filter as the evaluation pass uses it: the answer for a node, and the
    [titleWithHighlight] it assigns to that node, if any. *)
Definition nodeFilter := ref -> node -> filterResult * option jsstring.

(** The callback built from a filter string (lines 106-144). *)
Definition textFilter (escapeTitles : bool) (opts : filterOptions)
    (filter : jsstring) : nodeFilter :=
  fun _ n =>
    if falsyString (title n) then (FFalse, None)
    else
      let text :=
        if escapeTitles then title n else extractHtmlText (title n) in
      let res :=
        if fuzzy opts then fuzzyExec filter text
        else literalExec filter text in
      match res with
      | None => (FFalse, None)
      | Some matches =>
          if highlight opts then
            if escapeTitles then
              let temp :=
                if fuzzy opts then _markFuzzyMatchedChars text matches true
                else wrapOccurrences filter START_MARKER END_MARKER 0 text in
              (FTrue, Some (insertMarkTags (escapeHtml temp)))
            else
              if fuzzy opts
              then (FTrue, Some (_markFuzzyMatchedChars text matches false))
              else (FTrue,
                    Some (wrapOccurrences filter MARK_OPEN MARK_CLOSE 0 text))
          else (FTrue, None)
      end.

Definition compileFilter (escapeTitles : bool) (opts : filterOptions)
    (filter : filterArg) : nodeFilter :=
  match filter with
  | FilterText text => textFilter escapeTitles opts text
  | FilterCallback f => fun p n => (f p n, None)
  end.

End Filter.















Section Apply.
Context {R : Runtime}.





End Apply.

End FilterExtension.

(** ** Example trees *)

Definition leaf (name : string) : node :=
  MkNode name (lit name) false "" None.

Definition branch (name : string) (l : list node) : node :=
  MkNode name (lit name) false "" (Some l).

(** A freshly loaded tree: every node object as its constructor leaves it,
    the extension's options at their defaults. *)
Definition newTree (top : node) : tree :=
  {| root := top; nodes := fun _ => newNodeState; activeNode := None;
     enableFilter := false; _enableUpdate := true; listHeight := 0;
     redraws := 0; escapeTitles := true; autoCollapse := false;
     filterDefaults := defaultFilterOptions; filterMode := None;
     lastFilterArgs := None; classList := ∅; status := StatusOk |}.

(** The tree [[A[B,C[D]],E]] of the specification's scenario. *)
Definition scenarioRoot : node :=
  branch "__root__"
    [branch "A" [leaf "B"; branch "C" [leaf "D"]]; leaf "E"].

(** ** Vocabulary of the statements *)

(** The marking as the specification words it: the code units at the match
    indices that lie inside the title are wrapped one by one, and an index
    outside the title is skipped. *)
Definition markSkippingOutOfRange (text : jsstring) (matches : list jsstring)
    (escapeTitles : bool) : jsstring :=
  let matchingIndices := matchingIndicesOf matches in
  let open := if escapeTitles then START_MARKER else MARK_OPEN in
  let close := if escapeTitles then END_MARKER else MARK_CLOSE in
  concat (imap (fun i c => if bool_decide (i ∈ matchingIndices)
                           then open ++ [c] ++ close
                           else [c]) text).

(** The total length of the first [k] capture groups. *)
Definition lengthOfGroups (k : nat) (groups : list jsstring) : nat :=
  sum_list (length <$> take k groups).

(** The references of the nodes below [n], which sits at [p], in
    hierarchical order: the strict descendants of [n]. *)
Fixpoint descendants (n : node) (p : ref) : list ref :=
  match n with
  | MkNode _ _ _ _ ch =>
      match ch with
      | Some l =>
          (fix level (l : list node) (i : nat) : list ref :=
             match l with
             | [] => []
             | c :: l' =>
                 ((i :: p) :: descendants c (i :: p)) ++ level l' (S i)
             end) l 0
      | None => []
      end
  end.

(** [n] itself and its descendants. *)
Definition allRefs (n : node) (p : ref) : list ref := p :: descendants n p.

(** The number of nodes among [l] whose [match] flag is true. *)
Definition matchedIn (t : tree) (l : list ref) : nat :=
  length (filter (fun q => truthyFlag (match_ (nodes t q)) = true) l).


(** The references of the nodes [l], which are the children of [p] from
    index [i] on, each followed by its descendants. *)
Fixpoint levelRefs (l : list node) (p : ref) (i : nat) : list ref :=
  match l with
  | [] => []
  | c :: l' => ((i :: p) :: descendants c (i :: p)) ++ levelRefs l' p (S i)
  end.


(** The answer of the filter for the node [m] at [q]. *)
Definition answer (filter : FilterExtension.nodeFilter) (q : ref) (m : node)
    : filterResult :=
  fst (filter q m).










(** ** Vocabulary of the row traversals *)

(** The rows of the branch below [n] at [p] in display order, under the
    visibility rule of [visitRows]: [cf] says whether the filter hides
    nodes, [ih] is [includeHidden]. *)
Fixpoint visibleBranch (cf ih : bool) (t : tree) (n : node) (p : ref)
    : list (ref * node) :=
  match n with
  | MkNode _ _ _ _ ch =>
      if cf && Wunderbaum.filteredOut t p then []
      else
        (p, n)
        :: (if ih || expanded (nodes t p) then
              match ch with
              | Some l =>
                  (fix level (l : list node) (i : nat) : list (ref * node) :=
                     match l with
                     | [] => []
                     | c :: l' =>
                         visibleBranch cf ih t c (i :: p) ++ level l' (S i)
                     end) l 0
              | None => []
              end
            else [])
  end.

Fixpoint visibleLevel (cf ih : bool) (t : tree) (l : list node) (p : ref)
    (i : nat) : list (ref * node) :=
  match l with
  | [] => []
  | c :: l' =>
      visibleBranch cf ih t c (i :: p) ++ visibleLevel cf ih t l' p (S i)
  end.

(** The visible rows of the tree. *)
Definition rows (ih : bool) (t : tree) : list (ref * node) :=
  match WunderbaumNode.hasChildren (root t) with
  | Some true =>
      visibleLevel (negb ih && enableFilter t) ih t (kids (root t)) [] 0
  | _ => []
  end.

(** What a traversal decides on: the child arrays, whether the filter is
    consulted, and per node the [expanded] flag and whether the filter
    hides it. *)
Definition sameView (t t' : tree) : Prop :=
  root t' = root t
  /\ enableFilter t' = enableFilter t
  /\ forall p, expanded (nodes t' p) = expanded (nodes t p)
               /\ Wunderbaum.filteredOut t' p = Wunderbaum.filteredOut t p.

(** A callback that records the nodes it is called with, and the top-down
    sequence of rows it yields. *)
Definition collectRows : @Wunderbaum.rowCallback (list ref) :=
  fun self _ '(t, l) => (ROther, (t, l ++ [self])).

Definition rowsOpts (ih : bool) : visitRowsOpts :=
  {| start := None; reverse := false; includeSelf := true;
     includeHidden := ih |}.

Definition rowsDown (ih : bool) (t : tree) : list ref :=
  match Wunderbaum.visitRows 0 collectRows (rowsOpts ih) (t, []) with
  | Returned (_, (_, l)) => l
  | _ => []
  end.

(** One bottom-up step from the row [x]: the node the callback is called
    with, if any. *)
Definition recordRow : @Wunderbaum.rowCallback (option ref) :=
  fun self _ '(t, _) => (ROther, (t, Some self)).

Definition upOpts (ih : bool) (x : ref) : visitRowsOpts :=
  {| start := Some x; reverse := true; includeSelf := true;
     includeHidden := ih |}.

Definition prevRow (fuel : nat) (ih : bool) (t : tree) (x : ref)
    : outcome (option ref) :=
  match Wunderbaum.visitRows fuel recordRow (upOpts ih x) (t, None) with
  | Returned (_, (_, o)) => Returned o
  | Threw => Threw
  | OutOfFuel => OutOfFuel
  end.

(** The bottom-up traversal iterated from [x]: [x], the row before it, the
    row before that, and so on for at most [steps] steps. *)
Fixpoint walkUp (steps fuel : nat) (ih : bool) (t : tree) (x : ref)
    : list ref :=
  x :: match steps with
       | 0 => []
       | S k =>
           match prevRow fuel ih t x with
           | Returned (Some y) => walkUp k fuel ih t y
           | _ => []
           end
       end.

Definition rowsUp (fuel : nat) (ih : bool) (t : tree) : list ref :=
  match last (rowsDown ih t) with
  | Some x => walkUp (length (rowsDown ih t)) fuel ih t x
  | None => []
  end.

(** The number of nodes below the system root. *)
Definition treeSize (t : tree) : nat := length (descendants (root t) []).

(** Does [_visitRowsUp] call the callback on the node, rather than walk
    on? *)
Abbreviation shown ih t :=
  (fun qm : list nat * node => (ih || Wunderbaum.isVisible t qm.1) = true).

(** The parent [p] lets its children show: it is the system root, or it is
    expanded and visible itself, or hidden nodes are included. *)
Definition parentShows (ih : bool) (t : tree) (p : ref) : Prop :=
  match p with
  | [] => true
  | _ :: _ => expanded (nodes t p) && Wunderbaum.isVisible t p
  end = true \/ ih = true.

(** ** Vocabulary of the statements on [renumber] *)


(** The row index [idx] lies within the inclusive range. *)
Definition withinRange (start_ end_ : Q) (idx : nat) : Prop :=
  (start_ <= ofIdx idx)%Q /\ (ofIdx idx <= end_)%Q.

(** [renumber] on a tree, keeping the tree it leaves. *)
Definition renumbered (opts : renderRange) (t : tree) : option tree :=
  match Wunderbaum.renumber opts t with
  | Returned (_, t') => Some t'
  | _ => None
  end.

Definition rangeOf (first last : nat) : renderRange :=
  {| startIdx := Some (ofIdx first); endIdx := Some (ofIdx last) |}.

(** The tree [[A[C],B]]: a folder with one child, then a plain node. *)
Definition folderFirstRoot : node :=
  branch "__root__" [branch "A" [leaf "C"]; leaf "B"].

(** The tree [[A,B[C]]]: the second top node is a folder. *)
Definition folderSecondRoot : node :=
  branch "__root__" [leaf "A"; branch "B" [leaf "C"]].

(** The tree [[A]]: one top node only. *)
Definition singleRoot : node := branch "__root__" [leaf "A"].

(** ** Vocabulary of the statements on [visit], [visitParents] and
    [visitSiblings] *)

(** A callback that records the nodes it is called with and answers as
    [answerOf] says. *)
Definition recordVisit (answerOf : ref -> ctl)
    : ref -> node -> list ref -> ctl * list ref :=
  fun q _ l => (answerOf q, l ++ [q]).

Definition recordParent (answerOf : ref -> ctl)
    : ref -> list ref -> ctl * list ref :=
  fun q l => (answerOf q, l ++ [q]).

Definition isSkip (r : ctl) : bool :=
  match r with RSkip => true | _ => false end.

Definition isFalse (r : ctl) : bool :=
  match r with RFalse => true | _ => false end.

(** The proper ancestors of [q], nearest first, up to the system root. *)
Fixpoint ancestors (q : ref) : list ref :=
  match q with
  | [] => []
  | _ :: p => p :: ancestors p
  end.

(** In a traversal that starts at [p], the node [q] lies below a node
    that answers ["skip"]: one of its proper ancestors from [p] downwards,
    [p] itself counting only if the callback is called on it. *)
Definition belowSkip (answerOf : ref -> ctl) (p : ref) (includeSelf : bool)
    (q : ref) : bool :=
  existsb (fun a => bool_decide (p `suffix_of` a)
                    && (includeSelf || negb (ref_eqb a p))
                    && isSkip (answerOf a))
          (ancestors q).

(** The sequence [l] up to and including its first element at which the
    callback answers [false]. *)
Fixpoint upToFalse (answerOf : ref -> ctl) (l : list ref) : list ref :=
  match l with
  | [] => []
  | q :: l' =>
      q :: (if isFalse (answerOf q) then [] else upToFalse answerOf l')
  end.

Definition stopped (answerOf : ref -> ctl) (l : list ref) : bool :=
  existsb (fun q => isFalse (answerOf q)) l.

(** The nodes that [node.visit] on [n] at [p] is to call the callback on,
    were it never to answer [false]: [n] itself if asked for, and its
    descendants in hierarchical order, leaving out what lies below a
    ["skip"]. *)
Definition visitOrder (answerOf : ref -> ctl) (n : node) (p : ref)
    (includeSelf : bool) : list ref :=
  filter (fun q => belowSkip answerOf p includeSelf q = false)
         ((if includeSelf then [p] else []) ++ descendants n p).

(** The same for the nodes [l], which are the children of [p] from index
    [i] on. *)
Fixpoint visitOrderLevel (answerOf : ref -> ctl) (l : list node) (p : ref)
    (i : nat) : list ref :=
  match l with
  | [] => []
  | c :: l' =>
      visitOrder answerOf c (i :: p) true
      ++ visitOrderLevel answerOf l' p (S i)
  end.

(** ** Vocabulary of the statements on the rows *)

(** The visibility rule that [visitRows] applies on the way down to the
    node at [q]: with the filter consulted, neither [q] nor a node above it
    (the system root apart) is hidden by the filter; and every node above
    it (the system root apart) is expanded, unless hidden nodes are
    included. *)
Definition rowVisible (ih : bool) (t : tree) (q : ref) : Prop :=
  (forall a, a <> [] -> a `suffix_of` q ->
     negb ih && enableFilter t && Wunderbaum.filteredOut t a = false)
  /\ (forall a, a <> [] -> a `suffix_of` q -> a <> q ->
        ih || expanded (nodes t a) = true).

(** The rows that follow the branch of the node at [y] in display order:
    the branches of its later siblings, then what follows its parent. *)
Fixpoint rowsAfter (cf ih : bool) (t : tree) (y : ref) : list (ref * node) :=
  match y with
  | [] => []
  | i :: p =>
      visibleLevel cf ih t (drop (S i) (kids (Wunderbaum.nodeAt t p))) p (S i)
      ++ rowsAfter cf ih t p
  end.

(** The top-down sequence of rows that [visitRows] yields when it is
    started at the node [x]. *)
Definition startOpts (ih inc : bool) (x : ref) : visitRowsOpts :=
  {| start := Some x; reverse := false; includeSelf := inc;
     includeHidden := ih |}.

Definition rowsFrom (ih inc : bool) (t : tree) (x : ref) : list ref :=
  match Wunderbaum.visitRows 0 collectRows (startOpts ih inc x) (t, []) with
  | Returned (_, (_, l)) => l
  | _ => []
  end.

(** ** Vocabulary of the statements on the filter calls *)






(** ** Vocabulary of the statements on the active row *)



(** ** Vocabulary of the statements on the text filter *)

Section TextMatch.
Context {R : Runtime}.

(** The characters of [query] occur in [text] in this order, ignoring
    case, with any text before, between and after them. *)
Inductive charsInOrder : jsstring -> jsstring -> Prop :=
| in_order_done text : charsInOrder [] text
| in_order_skip query x text :
    charsInOrder query text -> charsInOrder query (x :: text)
| in_order_take c query x text :
    sameChar x c = true -> charsInOrder query text ->
    charsInOrder (c :: query) (x :: text).

(** [query] occurs in [text] as one piece, ignoring case. *)
Definition occursIn (query text : jsstring) : Prop :=
  exists before piece after,
    text = before ++ piece ++ after
    /\ Forall2 (fun q c => sameChar q c = true) query piece.

End TextMatch.

(** * Properties *)

(** ** Fuzzy match indices *)

Lemma lastOrZero_snoc l v : lastOrZero (l ++ [v]) = v.
Proof. unfold lastOrZero. apply last_last. Qed.
Lemma lengthOfGroups_cons i g groups :
  lengthOfGroups (S i) (g :: groups) = length g + lengthOfGroups i groups.
Proof. reflexivity. Qed.

Lemma lengthOfGroups_0 groups : lengthOfGroups 0 groups = 0.
Proof. reflexivity. Qed.

Lemma collectIndices_next groups : forall k acc v,
  1 < k ->
  collectIndices groups k (acc ++ [v]) =
  acc ++ [v] ++ imap (fun i _ => v + S i + lengthOfGroups (S i) groups) groups.
Proof.
  induction groups as [|g groups IH]; intros k acc v Hk; simpl.
  - done.
  - assert ((k =? 1) = false) as -> by (apply Nat.eqb_neq; lia).
    rewrite lastOrZero_snoc.
    rewrite (IH (S k) (acc ++ [v])) by lia.
    rewrite <- !app_assoc. simpl. f_equal. f_equal.
    apply (f_equal2 cons).
    + rewrite lengthOfGroups_cons, lengthOfGroups_0. lia.
    + apply imap_ext. intros i x _. unfold compose.
      rewrite (lengthOfGroups_cons (S i)). lia.
Qed.

Lemma matchingIndicesOf_closed full groups :
  matchingIndicesOf (full :: groups) =
  imap (fun i _ => lengthOfGroups (S i) groups + i) groups.
Proof.
  unfold matchingIndicesOf. simpl. rewrite drop_0.
  destruct groups as [|g groups]; [done|]. simpl.
  etransitivity; [apply (collectIndices_next groups 2 []); lia|].
  simpl. apply (f_equal2 cons).
  - rewrite lengthOfGroups_cons, lengthOfGroups_0. unfold lastOrZero. simpl. lia.
  - apply imap_ext. intros i x _. unfold compose.
    rewrite (lengthOfGroups_cons (S i)). unfold lastOrZero. simpl. lia.
Qed.

Lemma imap_increasing (f : nat -> nat) (groups : list jsstring) :
  (forall i j, i < j -> f i < f j) ->
  StronglySorted lt (imap (fun i _ => f i) groups).
Proof.
  revert f. induction groups as [|g groups IH]; intros f Hf; simpl.
  - constructor.
  - constructor.
    + apply (IH (f ∘ S)). intros i j Hij. simpl. apply Hf. lia.
    + apply Forall_forall. intros x Hx.
      apply elem_of_lookup_imap in Hx
        as (i & y & -> & _).
      simpl. apply Hf. lia.
Qed.

Lemma lengthOfGroups_mono groups : forall i j,
  i <= j -> lengthOfGroups i groups <= lengthOfGroups j groups.
Proof.
  induction groups as [|g groups IH]; intros i j Hij.
  - unfold lengthOfGroups. by rewrite !take_nil.
  - destruct i, j; try lia.
    + rewrite lengthOfGroups_0. lia.
    + rewrite !lengthOfGroups_cons. specialize (IH i j). lia.
Qed.

Lemma matchingIndicesOf_sorted matches :
  StronglySorted lt (matchingIndicesOf matches).
Proof.
  destruct matches as [|full groups]; [constructor|].
  rewrite matchingIndicesOf_closed.
  apply (imap_increasing (fun i => lengthOfGroups (S i) groups + i)).
  intros i j Hij. pose proof (lengthOfGroups_mono groups (S i) (S j)). lia.
Qed.

(** C7.  The highlighted index for query character [i] is the total length
    of the capture groups up to and including group [i], plus one for each
    query character matched before it; the indices are strictly increasing;
    and the fuzzy filter fb matches the title FooBar with the indices 0 and
    3, so that F and B are the characters marked. *)
Theorem fuzzy_match_indices :
  (forall full groups,
     matchingIndicesOf (full :: groups) =
     imap (fun i _ => lengthOfGroups (S i) groups + i) groups)
  /\ (forall matches, StronglySorted lt (matchingIndicesOf matches))
  /\ (exists matches,
        @fuzzyExec asciiRuntime (lit "fb") (lit "FooBar") = Some matches
        /\ matchingIndicesOf matches = [0; 3]
        /\ _markFuzzyMatchedChars (lit "FooBar") matches false =
           lit "<mark>F</mark>oo<mark>B</mark>ar").
Proof.
  split; [exact matchingIndicesOf_closed|].
  split; [exact matchingIndicesOf_sorted|].
  eexists. split; [vm_compute; reflexivity|]. split; reflexivity.
Qed.

(** ** Marking the matched characters *)

Section Marking.
Variables (text open close : jsstring).

(** The array [textPoses] once the indices [done] have been wrapped. *)
Let marked (done : list nat) : jsarray :=
  imap (fun i c => Some (if bool_decide (i ∈ done)
                         then open ++ [c] ++ close else [c])) text.

Lemma split_marked : split text = marked [].
Proof.
  unfold split, marked. rewrite <- imap_const.
  apply imap_ext. intros i c _. rewrite bool_decide_eq_false_2; [done|].
  apply not_elem_of_nil.
Qed.

Lemma wrapAt_marked done v :
  v < length text -> v ∉ done ->
  wrapAt open close (marked done) v = marked (done ++ [v]).
Proof.
  intros Hv Hnotin.
  assert (length (marked done) = length text) as Hlen
    by apply length_imap.
  destruct (lookup_lt_is_Some_2 text v Hv) as [c Hc].
  assert (marked done !! v = Some (Some [c])) as Hread.
  { unfold marked. rewrite list_lookup_imap, Hc. simpl.
    by rewrite (bool_decide_eq_false_2 _ Hnotin). }
  unfold wrapAt, writeAt, readAsText. rewrite Hread, Hlen.
  apply Nat.ltb_lt in Hv as Hv'. rewrite Hv'.
  apply list_eq. intros i.
  destruct (decide (i = v)) as [->|Hne].
  - rewrite list_lookup_insert_eq by lia.
    unfold marked. rewrite list_lookup_imap, Hc. simpl.
    rewrite bool_decide_eq_true_2; [done|].
    apply elem_of_app. right. apply list_elem_of_singleton. done.
  - rewrite list_lookup_insert_ne by done.
    unfold marked. rewrite !list_lookup_imap.
    destruct (text !! i) as [d|]; [|done].
    simpl. rewrite (bool_decide_ext (i ∈ done ++ [v]) (i ∈ done)); [done|].
    rewrite elem_of_app, list_elem_of_singleton. tauto.
Qed.

Lemma foldl_wrapAt idxs : forall done,
  Forall (fun v => v < length text) idxs ->
  NoDup (done ++ idxs) ->
  foldl (wrapAt open close) (marked done) idxs = marked (done ++ idxs).
Proof.
  induction idxs as [|v idxs IH]; intros done Hin Hnd; simpl.
  - by rewrite app_nil_r.
  - inversion Hin as [|? ? Hv Hin']; subst.
    apply NoDup_app in Hnd as Hnd'. destruct Hnd' as (_ & Hdisj & _).
    rewrite wrapAt_marked; [|done|].
    + rewrite IH; [by rewrite <- app_assoc|done|by rewrite <- app_assoc].
    + intros Hd. apply (Hdisj v Hd). left.
Qed.

Lemma join_marked done :
  join (marked done) =
  concat (imap (fun i c => if bool_decide (i ∈ done)
                           then open ++ [c] ++ close else [c]) text).
Proof.
  unfold join, marked. change (map ?f ?l) with (f <$> l).
  rewrite fmap_imap. f_equal.
Qed.

End Marking.

Lemma StronglySorted_lt_NoDup (l : list nat) : StronglySorted lt l -> NoDup l.
Proof.
  induction 1 as [|x l Hs IH Hx]; constructor; [|done].
  intros Hin. rewrite Forall_forall in Hx. specialize (Hx x Hin). lia.
Qed.

Lemma markFuzzy_in_range text matches escapeTitles :
  Forall (fun v => v < length text) (matchingIndicesOf matches) ->
  _markFuzzyMatchedChars text matches escapeTitles =
  markSkippingOutOfRange text matches escapeTitles.
Proof.
  intros Hin. unfold _markFuzzyMatchedChars, markSkippingOutOfRange.
  pose proof (StronglySorted_lt_NoDup _ (matchingIndicesOf_sorted matches))
    as Hnd.
  destruct escapeTitles.
  - rewrite (split_marked text START_MARKER END_MARKER).
    rewrite foldl_wrapAt by done. apply join_marked.
  - rewrite (split_marked text MARK_OPEN MARK_CLOSE).
    rewrite foldl_wrapAt by done. apply join_marked.
Qed.
(** ** The match arrays of the fuzzy pattern *)

Section FuzzyExec.
Context {R : Runtime}.

Lemma span_length p l g r :
  span p l = (g, r) -> length g + length r = length l.
Proof.
  revert g r. induction l as [|c l IH]; intros g r; simpl.
  - intros [= <- <-]. done.
  - destruct (p c).
    + destruct (span p l) as [g' r'] eqn:E. intros [= <- <-].
      specialize (IH _ _ eq_refl). simpl. lia.
    + intros [= <- <-]. done.
Qed.

Lemma matchGroups_length query : forall text gs rest,
  matchGroups query text = Some (gs, rest) ->
  length gs = length query
  /\ sum_list (length <$> gs) + length query + length rest = length text.
Proof.
  induction query as [|c query IH]; intros text gs rest; simpl.
  - intros [= <- <-]. simpl. split; [done|lia].
  - destruct (span _ text) as [g r] eqn:Hspan.
    apply span_length in Hspan.
    destruct r as [|x r']; [done|].
    destruct (matchGroups query r') as [[gs' rest']|] eqn:Hrec; [|done].
    intros [= <- <-]. destruct (IH _ _ _ Hrec) as [Hlen Hsum].
    split; [simpl; by f_equal|]. rewrite fmap_cons. simpl in *. lia.
Qed.

Lemma lengthOfGroups_le k groups :
  lengthOfGroups k groups <= sum_list (length <$> groups).
Proof.
  destruct (decide (k <= length groups)).
  - etransitivity; [apply (lengthOfGroups_mono groups k (length groups)); lia|].
    unfold lengthOfGroups. by rewrite firstn_all.
  - unfold lengthOfGroups. rewrite take_ge by lia. done.
Qed.

Lemma fuzzyExec_in_range query : forall text matches,
  fuzzyExec query text = Some matches ->
  Forall (fun v => v < length text) (matchingIndicesOf matches).
Proof.
  induction text as [|c text IH]; intros matches; simpl.
  - destruct (matchGroups query []) as [[gs rest]|] eqn:Hm; [|done].
    intros [= <-]. apply matchGroups_length in Hm as [Hlen Hsum].
    rewrite matchingIndicesOf_closed. apply Forall_forall. intros v Hv.
    apply elem_of_lookup_imap in Hv as (i & g & -> & Hi).
    apply lookup_lt_Some in Hi. pose proof (lengthOfGroups_le (S i) gs).
    simpl in *. lia.
  - destruct (matchGroups query (c :: text)) as [[gs rest]|] eqn:Hm.
    + intros [= <-]. apply matchGroups_length in Hm as [Hlen Hsum].
      rewrite matchingIndicesOf_closed. apply Forall_forall. intros v Hv.
      apply elem_of_lookup_imap in Hv as (i & g & -> & Hi).
      apply lookup_lt_Some in Hi. pose proof (lengthOfGroups_le (S i) gs).
      simpl in *. lia.
    + intros Hrec. specialize (IH _ Hrec).
      eapply Forall_impl; [exact IH|]. simpl. intros; lia.
Qed.

(** The highlight of a fuzzy match as the filter computes it: the match
    array comes from matching the very text that is marked. *)
Lemma fuzzy_highlight_of_match query text matches escapeTitles :
  fuzzyExec query text = Some matches ->
  _markFuzzyMatchedChars text matches escapeTitles =
  markSkippingOutOfRange text matches escapeTitles.
Proof.
  intros Hm. apply markFuzzy_in_range. by eapply fuzzyExec_in_range.
Qed.

End FuzzyExec.

(** C8, as amended.  When every index derived from the match array lies
    inside the title (which holds for every array the fuzzy pattern yields
    on that title, see [fuzzy_highlight_of_match]), [_markFuzzyMatchedChars]
    returns the title with exactly the code units at those indices wrapped
    in the markers and every other code unit unchanged. *)
Theorem mark_fuzzy_in_range text matches escapeTitles :
  Forall (fun v => v < length text) (matchingIndicesOf matches) ->
  _markFuzzyMatchedChars text matches escapeTitles =
  markSkippingOutOfRange text matches escapeTitles.
Proof. apply markFuzzy_in_range. Qed.

Lemma mark_fuzzy_in_range_witness :
  _markFuzzyMatchedChars (lit "FooBar") [lit "FooB"; lit ""; lit "oo"] true =
  markSkippingOutOfRange (lit "FooBar") [lit "FooB"; lit ""; lit "oo"] true.
Proof.
  apply (mark_fuzzy_in_range (lit "FooBar") [lit "FooB"; lit ""; lit "oo"]).
  repeat constructor.
Defined.

(** C8 as stated fails: an index past the end of the title is not skipped.
    The array grows and a marked "undefined" is written at that index. *)
Lemma mark_fuzzy_out_of_range_counterexample :
  _markFuzzyMatchedChars (lit "ab") [lit "abcd"; lit "abc"] false =
    lit "ab<mark>undefined</mark>"
  /\ markSkippingOutOfRange (lit "ab") [lit "abcd"; lit "abc"] false =
     lit "ab"
  /\ _markFuzzyMatchedChars (lit "ab") [lit "abcd"; lit "abc"] false <>
     markSkippingOutOfRange (lit "ab") [lit "abcd"; lit "abc"] false.
Proof. repeat split; [reflexivity..|discriminate]. Qed.
(** ** Trees and references *)

Lemma node_ind' (P : node -> Prop) :
  (forall n, Forall P (kids n) -> P n) -> forall n, P n.
Proof.
  intros H. fix IH 1. intros [k t l s ch]. apply H.
  destruct ch as [l'|]; simpl; [|constructor].
  induction l' as [|c l' IHl]; constructor; [apply IH|apply IHl].
Qed.

Lemma getNode_app top d p :
  getNode top (d ++ p) =
  match getNode top p with Some n => getNode n d | None => None end.
Proof.
  induction d as [|i d IH]; simpl.
  - by destruct (getNode top p).
  - rewrite IH. by destruct (getNode top p).
Qed.

Lemma suffix_cons_inv_index (i j : nat) (p q : list nat) :
  (i :: p) `suffix_of` q -> (j :: p) `suffix_of` q -> i = j.
Proof.
  intros [k1 ->] [k2 Heq].
  apply app_inj_2 in Heq as [_ [= ->]]; done.
Qed.


(** ** The traversal [visit] *)

Lemma visit_eq {St} (cb : list nat -> node -> St -> ctl * St) n p b s :
  WunderbaumNode.visit cb n p b s =
  let loop res s :=
    forChildren (fun i c => WunderbaumNode.visit cb c (i :: p) true)
                (kids n) 0 res s in
  if b then
    let '(res, s1) := cb p n s in
    match res with
    | ROther => loop res s1
    | _ => (res, s1)
    end
  else loop ROther s.
Proof. destruct n as [k t l st [ch|]]; reflexivity. Qed.





(** Callbacks that always go on and only assign to fields of the node they
    are called with. *)
Section VisitLocal.
Variable cb : list nat -> node -> tree -> ctl * tree.
Variable G : list nat -> node -> nodeState -> nodeState -> Prop.
Hypothesis cb_local : forall q m t,
  exists st', cb q m t = (ROther, setNodes st' t)
    /\ (forall r, r <> q -> st' r = nodes t r)
    /\ G q m (nodes t q) (st' q).


Lemma getNode_snoc n d i :
  getNode n (d ++ [i]) =
  match kids n !! i with Some c => getNode c d | None => None end.
Proof. rewrite getNode_app. reflexivity. Qed.



End VisitLocal.
(** ** Assignments to node fields *)

Import Wunderbaum.












(** ** [clearFilter] *)

Import FilterExtension.

Lemma descendants_eq n p : descendants n p = levelRefs (kids n) p 0.
Proof.
  destruct n as [k t l s [ch|]]; [|reflexivity]. simpl.
  generalize 0. induction ch as [|c ch IH]; intros i; simpl; [done|].
  by rewrite IH.
Qed.

Lemma elem_of_levelRefs (l : list node) p q : forall i0,
  Forall (fun c => forall p q, q ∈ descendants c p <->
    exists d m, d <> [] /\ q = d ++ p /\ getNode c d = Some m) l ->
  q ∈ levelRefs l p i0 <->
  exists i c d m, l !! i = Some c /\ q = d ++ (i0 + i) :: p
                  /\ getNode c d = Some m.
Proof.
  intros i0 Hl. revert i0.
  induction Hl as [|c l Hc Hl IH]; intros i0; simpl.
  - split; [by intros ?%elem_of_nil|]. by intros (i & c & d & m & ? & _).
  - rewrite elem_of_cons, elem_of_app, Hc, IH. split.
    + intros [->|[(d & m & Hd & -> & Hget)|(i & c' & d & m & Hi & -> & Hget)]].
      * exists 0, c, [], c. by rewrite Nat.add_0_r.
      * exists 0, c, d, m. by rewrite Nat.add_0_r.
      * exists (S i), c', d, m. split; [done|]. split; [|done].
        by replace (i0 + S i) with (S i0 + i) by lia.
    + intros ([|i] & c' & d & m & Hi & -> & Hget); simpl in Hi.
      * injection Hi as <-. rewrite Nat.add_0_r.
        destruct d as [|j d]; [by left|]. right. left.
        exists (j :: d), m. done.
      * right. right. exists i, c', d, m. split; [done|]. split; [|done].
        by replace (S i0 + i) with (i0 + S i) by lia.
Qed.

Lemma elem_of_descendants n : forall p q,
  q ∈ descendants n p <->
  exists d m, d <> [] /\ q = d ++ p /\ getNode n d = Some m.
Proof.
  induction n as [n IH] using node_ind'. intros p q.
  rewrite descendants_eq, (elem_of_levelRefs _ _ _ 0 IH). split.
  - intros (i & c & d & m & Hi & -> & Hget).
    exists (d ++ [i]), m. split; [by destruct d|].
    rewrite <- app_assoc. split; [done|].
    by rewrite getNode_snoc, Hi.
  - intros (d & m & Hd & -> & Hget).
    destruct d as [|i d _] using rev_ind; [done|].
    rewrite getNode_snoc in Hget.
    destruct (kids n !! i) as [c|] eqn:Hi; [|done].
    exists i, c, d, m. by rewrite <- app_assoc.
Qed.

Lemma elem_of_allRefs n p q :
  q ∈ allRefs n p <-> exists d m, q = d ++ p /\ getNode n d = Some m.
Proof.
  unfold allRefs. rewrite elem_of_cons, elem_of_descendants. split.
  - intros [->|(d & m & _ & -> & Hget)]; [by exists [], n|by exists d, m].
  - intros ([|i d] & m & -> & Hget); [by left|].
    right. by exists (i :: d), m.
Qed.


(** ** Counting matches *)

Lemma descendants_longer n p q : q ∈ descendants n p -> length p < length q.
Proof.
  intros (d & m & Hd & -> & _)%elem_of_descendants.
  rewrite length_app. destruct d; [done|simpl; lia].
Qed.

Lemma descendants_suffix n p q : q ∈ descendants n p -> p `suffix_of` q.
Proof.
  intros (d & m & Hd & -> & _)%elem_of_descendants. by apply suffix_app_r.
Qed.

Lemma levelRefs_suffix (l : list node) p q : forall i0,
  q ∈ levelRefs l p i0 -> exists i, i0 <= i /\ (i :: p) `suffix_of` q.
Proof.
  induction l as [|c l IH]; intros i0; simpl; [by intros ?%elem_of_nil|].
  rewrite elem_of_cons, elem_of_app. intros [->|[Hin|Hin]].
  - by exists i0.
  - exists i0. split; [done|]. by apply descendants_suffix in Hin.
  - destruct (IH _ Hin) as (i & Hi & Hs). exists i. split; [lia|done].
Qed.

Lemma NoDup_levelRefs (l : list node) p : forall i0,
  Forall (fun c => forall p, NoDup (descendants c p)) l ->
  NoDup (levelRefs l p i0).
Proof.
  intros i0 Hl. revert i0.
  induction Hl as [|c l Hc Hl IH]; intros i0; simpl; [constructor|].
  assert (forall x, (i0 :: p) `suffix_of` x ->
            x ∉ levelRefs l p (S i0)) as Hdisj.
  { intros x Hx (i & Hi & Hs)%levelRefs_suffix.
    pose proof (suffix_cons_inv_index _ _ _ _ Hx Hs). lia. }
  apply NoDup_cons. split.
  - rewrite elem_of_app. intros [Hin|Hin].
    + apply descendants_longer in Hin. lia.
    + by apply (Hdisj (i0 :: p)).
  - apply NoDup_app. split; [apply Hc|]. split; [|apply IH].
    intros x Hx. apply Hdisj. by apply descendants_suffix in Hx.
Qed.

Lemma NoDup_descendants n : forall p, NoDup (descendants n p).
Proof.
  induction n as [n IH] using node_ind'. intros p.
  rewrite descendants_eq. by apply NoDup_levelRefs.
Qed.

Lemma matchedIn_nil t : matchedIn t [] = 0.
Proof. reflexivity. Qed.






Lemma suffix_cons_cases (r : list nat) i cur :
  r `suffix_of` i :: cur -> r = i :: cur \/ r `suffix_of` cur.
Proof.
  intros [[|x k] Hk]; [by left|]. right. exists k. by injection Hk.
Qed.

(** ** Counting a match on the ancestors *)

Section CountAndExpand.
Variables (opts : filterOptions) (self : list nat) (byBranch : bool).




End CountAndExpand.
Section CountAndExpandSelf.
Variables (opts : filterOptions) (self : list nat) (byBranch : bool).


End CountAndExpandSelf.
(** ** One call of the evaluation callback *)

Section EvaluateNode.
Variables (filter : nodeFilter) (branchMode leavesOnly : bool).
Variable opts : filterOptions.







End EvaluateNode.
(** ** The counters during the evaluation pass *)




Section Verdict.
Variables (filter : nodeFilter) (branchMode leavesOnly : bool).



End Verdict.
(** ** The evaluation pass over a branch *)

Section EvaluationPass.
Variables (filter : nodeFilter) (branchMode leavesOnly : bool).
Variable opts : filterOptions.






End EvaluationPass.
(** ** The reset pass and the whole of [_applyFilterImpl] *)



Section WholePass.
Variables (filter : nodeFilter) (branchMode leavesOnly : bool).
Variable opts : filterOptions.


End WholePass.
Section ApplyFilter.
Context {R : Runtime}.


End ApplyFilter.
(** ** The filter pass: flags and counters (C1, C10) *)

Section FilterPass.
Context {R : Runtime}.



End FilterPass.


Lemma visit_invariant {St} (I : St -> Prop)
    (cb : list nat -> node -> St -> ctl * St) :
  (forall q m s, I s -> I (snd (cb q m s))) ->
  forall n p b s, I s -> I (snd (WunderbaumNode.visit cb n p b s)).
Proof.
  intros Hcb. induction n as [n IH] using node_ind'. intros p b s Hs.
  rewrite visit_eq. cbv zeta.
  assert (forall res s, I s ->
            I (snd (forChildren
                      (fun i c => WunderbaumNode.visit cb c (i :: p) true)
                      (kids n) 0 res s))) as Hloop.
  { generalize 0. induction IH as [|c l Hc Hl IHl]; intros i res s0 Hs0;
      [done|]. cbn [forChildren].
    specialize (Hc (i :: p) true s0 Hs0).
    destruct (WunderbaumNode.visit cb c (i :: p) true s0) as [r s1].
    destruct r; [done| |]; by apply IHl. }
  destruct b; [|by apply Hloop].
  specialize (Hcb p n s Hs). destruct (cb p n s) as [r s1].
  destruct r; [done|done|by apply Hloop].
Qed.

Section FilterCount.
Context {R : Runtime}.



End FilterCount.

(** ** Matches inherited from the parent (C2) *)

Section Inherited.
Variables (filter : nodeFilter) (branchMode leavesOnly : bool).
Variable opts : filterOptions.


End Inherited.


(** ** The top-down row traversal *)

Lemma visibleBranch_eq cf ih t n p :
  visibleBranch cf ih t n p =
  if cf && filteredOut t p then []
  else (p, n) :: (if ih || expanded (nodes t p)
                  then visibleLevel cf ih t (kids n) p 0 else []).
Proof.
  destruct n as [k ti l s [ch|]]; simpl; [|done].
  destruct (cf && _); [done|]. f_equal.
  destruct (ih || _); [|done].
  generalize 0. induction ch as [|c ch IH]; intros i; simpl; [done|].
  by rewrite IH.
Qed.


Lemma sameView_refl t : sameView t t.
Proof. done. Qed.

Lemma sameView_trans t1 t2 t3 :
  sameView t1 t2 -> sameView t2 t3 -> sameView t1 t3.
Proof.
  intros (Hr & He & Hp) (Hr' & He' & Hp').
  split; [congruence|]. split; [congruence|].
  intros p. destruct (Hp p) as [<- <-]. apply Hp'.
Qed.

Section TopDown.
Context {A : Type}.
Variable callback : @rowCallback A.
Variable ih : bool.
Hypothesis callback_goes_on : forall q m s, fst (callback q m s) <> RFalse.
Hypothesis callback_view : forall q m s,
  sameView (fst s) (fst (snd (callback q m s))).

Let step (s : tree * A) (qm : list nat * node) : tree * A :=
  snd (callback qm.1 qm.2 s).

Lemma foldl_step_view l : forall s, sameView (fst s) (fst (foldl step s l)).
Proof.
  induction l as [|qm l IH]; intros s; simpl; [apply sameView_refl|].
  eapply sameView_trans; [|apply IH]. apply callback_view.
Qed.

Let cfOf (t : tree) : bool := negb ih && enableFilter t.

Lemma checkFilter_view t t' :
  sameView t t' -> checkFilter ih t' = checkFilter ih t.
Proof. intros (_ & He & _). unfold checkFilter. by rewrite He. Qed.

(** The statement proved for [node.visit] inside [visitRows]. *)
Let innerDone (n : node) : Prop :=
  forall t0 p s, sameView t0 (fst s) ->
    exists r,
      WunderbaumNode.visit (visitRowsInner callback ih) n p true s
      = (r, foldl step s (visibleBranch (cfOf t0) ih t0 n p))
      /\ r <> RFalse.

Lemma inner_children p (l : list node) :
  Forall innerDone l ->
  forall t0 i res s, sameView t0 (fst s) -> res <> RFalse ->
    exists r,
      forChildren (fun i c => WunderbaumNode.visit
                                (visitRowsInner callback ih) c (i :: p) true)
                  l i res s
      = (r, foldl step s (visibleLevel (cfOf t0) ih t0 l p i))
      /\ r <> RFalse.
Proof.
  induction 1 as [|c l Hc Hl IH]; intros t0 i res s Hv Hres; simpl.
  - by exists res.
  - destruct (Hc t0 (i :: p) s Hv) as (r1 & -> & Hr1).
    rewrite foldl_app.
    destruct (IH t0 (S i) r1 (foldl step s (visibleBranch (cfOf t0) ih t0 c (i :: p))))
      as (r2 & Hrun & Hr2); [|done|].
    { eapply sameView_trans; [exact Hv|]. apply foldl_step_view. }
    exists r2. split; [|done]. destruct r1; [done|exact Hrun..].
Qed.

Lemma inner_visit n : innerDone n.
Proof.
  induction n as [n IH] using node_ind'. intros t0 p s Hv.
  rewrite visit_eq, visibleBranch_eq. cbv zeta.
  destruct (visitRowsInner callback ih p n s) as [r s1] eqn:Hinner.
  unfold visitRowsInner in Hinner.
  rewrite (checkFilter_view t0 (fst s) Hv) in Hinner.
  unfold checkFilter in Hinner. fold (cfOf t0) in Hinner.
  pose proof Hv as (Hroot & Hef & Hp). destruct (Hp p) as [Hexp Hfo].
  rewrite Hfo in Hinner.
  destruct (cfOf t0 && filteredOut t0 p).
  { injection Hinner as <- <-. by exists RSkip. }
  pose proof (callback_goes_on p n s) as Hgo.
  pose proof (callback_view p n s) as Hv1.
  destruct (callback p n s) as [r' s1'] eqn:Hcb. simpl in Hgo, Hv1.
  assert (sameView t0 (fst s1')) as Hv01.
  { eapply sameView_trans; [|exact Hv1]. done. }
  destruct Hv1 as (_ & _ & Hp1). destruct (Hp1 p) as [Hexp1 _].
  rewrite Hexp1, Hexp in Hinner.
  assert (forall l, foldl step s ((p, n) :: l) = foldl step s1' l) as Hs1.
  { intros l. simpl. unfold step at 2. simpl. by rewrite Hcb. }
  rewrite Hs1.
  assert ((r, s1) =
          (if negb ih && WunderbaumNode.isExpandable n
              && negb (expanded (nodes t0 p))
           then RSkip else ROther, s1')) as Hr.
  { rewrite <- Hinner. destruct r'; [done| |]; by destruct (_ && _ && _). }
  clear Hinner. injection Hr as -> ->.
  destruct (negb ih && WunderbaumNode.isExpandable n
            && negb (expanded (nodes t0 p))) eqn:Hclosed.
  - exists RSkip. split; [|done].
    apply andb_true_iff in Hclosed as [[Hih _]%andb_true_iff Hx].
    apply negb_true_iff in Hih, Hx. by rewrite Hih, Hx.
  - destruct (ih || expanded (nodes t0 p)) eqn:Hopen.
    + destruct (inner_children p (kids n) IH t0 0 ROther s1' Hv01)
        as (r2 & -> & Hr2); [done|]. by exists r2.
    + assert (kids n = []) as ->; [|by exists ROther].
      apply orb_false_iff in Hopen as [-> Hx]. rewrite Hx in Hclosed.
      simpl in Hclosed. rewrite andb_true_r in Hclosed.
      unfold WunderbaumNode.isExpandable, kids in *.
      by destruct (children n).
Qed.

Lemma siblingsLoop_rows parent (l : list node) : forall t0 i s,
  sameView t0 (fst s) ->
  siblingsLoop callback ih parent l i false s
  = (true, false, foldl step s (visibleLevel (cfOf t0) ih t0 l parent i)).
Proof.
  induction l as [|n l IH]; intros t0 i s Hv; [done|].
  cbn [siblingsLoop visibleLevel]. rewrite visibleBranch_eq, foldl_app.
  rewrite (checkFilter_view t0 (fst s) Hv).
  unfold checkFilter. fold (cfOf t0).
  pose proof Hv as (Hroot & Hef & Hp). destruct (Hp (i :: parent)) as [Hexp Hfo].
  rewrite Hfo. destruct (cfOf t0 && filteredOut t0 (i :: parent)).
  { simpl. by apply IH. }
  pose proof (callback_goes_on (i :: parent) n s) as Hgo.
  pose proof (callback_view (i :: parent) n s) as Hv1.
  destruct (callback (i :: parent) n s) as [r s1] eqn:Hcb.
  simpl in Hgo, Hv1.
  assert (sameView t0 (fst s1)) as Hv01.
  { eapply sameView_trans; [|exact Hv1]. done. }
  destruct Hv1 as (_ & _ & Hp1). destruct (Hp1 (i :: parent)) as [Hexp1 _].
  rewrite Hexp1, Hexp.
  assert (forall l, foldl step s ((i :: parent, n) :: l) = foldl step s1 l)
    as Hs1.
  { intros l'. simpl. unfold step at 2. simpl. by rewrite Hcb. }
  rewrite Hs1.
  assert (exists r2,
    match children n with
    | Some (_ :: _) =>
        if ih || expanded (nodes t0 (i :: parent))
        then WunderbaumNode.visit (visitRowsInner callback ih) n (i :: parent)
               false s1
        else (ROther, s1)
    | _ => (ROther, s1)
    end
    = (r2, foldl step s1
             (if ih || expanded (nodes t0 (i :: parent))
              then visibleLevel (cfOf t0) ih t0 (kids n) (i :: parent) 0
              else []))
    /\ r2 <> RFalse) as (r2 & Hdive & Hr2).
  { destruct (ih || expanded (nodes t0 (i :: parent))).
    - rewrite visit_eq. cbv zeta.
      destruct (inner_children (i :: parent) (kids n)) with (t0 := t0) (i := 0)
        (res := ROther) (s := s1) as (r2 & Hrun & Hr2); [|done|done|].
      { apply Forall_forall. intros c _. apply inner_visit. }
      unfold kids in *. destruct (children n) as [[|c l']|]; simpl in *.
      + by exists ROther.
      + by exists r2.
      + by exists ROther.
    - exists ROther. by destruct (children n) as [[|c l']|]. }
  destruct r; [done| |]; rewrite Hdive;
    (destruct r2; [done| |]); apply IH;
    (eapply sameView_trans; [exact Hv01|apply foldl_step_view]).
Qed.

(** [visitRows] top-down from the first top node calls the callback on the
    visible rows, in order. *)
Lemma visitRows_rows fuel t a :
  visitRows fuel callback (rowsOpts ih) (t, a) =
  Returned (match WunderbaumNode.hasChildren (root t) with
            | Some true => true
            | _ => false
            end, foldl step (t, a) (rows ih t)).
Proof.
  unfold visitRows, rows. simpl fst.
  destruct (WunderbaumNode.hasChildren (root t)) as [[|]|]; [|done..].
  simpl. unfold nodeAt. simpl. rewrite drop_0.
  rewrite (siblingsLoop_rows [] (kids (root t)) t 0 (t, a)) by done.
  done.
Qed.

End TopDown.
Lemma rowsDown_rows ih t : rowsDown ih t = (rows ih t).*1.
Proof.
  unfold rowsDown.
  rewrite (visitRows_rows collectRows ih);
    [|by intros q m [t0 l0]|by intros q m [t0 l0]].
  generalize (rows ih t). intros l.
  assert (forall acc,
              snd (foldl (fun s qm => snd (collectRows qm.1 qm.2 s))
                         (t, acc) l) = acc ++ l.*1
              /\ fst (foldl (fun s qm => snd (collectRows qm.1 qm.2 s))
                            (t, acc) l) = t) as H.
    { induction l as [|[q m] l IH]; intros acc; simpl.
      - by rewrite app_nil_r.
      - destruct (IH (acc ++ [q])) as [-> ->]. by rewrite <- app_assoc. }
    specialize (H []). destruct (foldl _ _ _) as [t' l']. simpl in H.
    by destruct H as [-> _].
Qed.
(** ** The bottom-up step *)

Section BottomUp.
Variable ih : bool.
Variable t : tree.

(** The display order when the filter is not consulted: the nodes all of
    whose ancestors below the root are open. *)
Let openBranch := visibleBranch false ih t.
Let openLevel := visibleLevel false ih t.

(** [b] comes right after [a]: one round of the loop of [_visitRowsUp]
    leads from [b] to [a]. *)
Let follows (a b : list nat) : Prop := stepUp ih t b = Returned (Some a).

Lemma Sorted_glue {X} (R : X -> X -> Prop) (l1 l2 : list X) :
  Sorted R l1 -> Sorted R l2 ->
  (forall a b, last l1 = Some a -> head l2 = Some b -> R a b) ->
  Sorted R (l1 ++ l2).
Proof.
  intros H1 H2 Hglue. induction H1 as [|x l1 Hs IH Hhd]; [done|].
  simpl. constructor.
  - apply IH. intros a b Ha Hb. apply Hglue; [|done].
    destruct l1; [done|]. by rewrite last_cons_cons.
  - destruct l1 as [|y l1]; simpl.
    + destruct l2 as [|b l2]; constructor. by apply Hglue.
    + constructor. by inversion Hhd.
Qed.

Lemma openBranch_head n p :
  head (openBranch n p).*1 = Some p.
Proof. unfold openBranch. by rewrite visibleBranch_eq. Qed.

Lemma openLevel_head (l : list node) p i :
  head (openLevel l p i).*1 = (fun _ => i :: p) <$> head l.
Proof.
  destruct l as [|c l]; [done|]. unfold openLevel. simpl.
  rewrite fmap_app. pose proof (openBranch_head c (i :: p)) as H.
  unfold openBranch in H. by destruct ((visibleBranch false ih t c (i :: p)).*1).
Qed.

Lemma last_app_keeps {X} (l1 l2 : list X) x :
  last l2 = Some x -> last (l1 ++ l2) = Some x.
Proof.
  intros H. destruct l2 as [|y l2] using rev_ind; [done|].
  rewrite last_snoc in H. injection H as ->.
  by rewrite app_assoc, last_snoc.
Qed.

Lemma openLevel_last (l : list node) p d :
  Forall (fun c => forall q,
            last (openBranch c q).*1
            = Some (lastDescendant ih (nodes t) c q)) l ->
  forall i,
    last (openLevel l p i).*1 =
    match l with
    | [] => None
    | _ => Some (withLast (fun i c => lastDescendant ih (nodes t) c (i :: p))
                          d l i)
    end.
Proof.
  induction 1 as [|c l Hc Hl IH]; intros i; [done|].
  unfold openLevel. cbn [visibleLevel withLast]. rewrite fmap_app.
  destruct l as [|c' l].
  - simpl. rewrite app_nil_r. apply Hc.
  - apply last_app_keeps. apply IH.
Qed.

Lemma openBranch_last n : forall p,
  last (openBranch n p).*1 = Some (lastDescendant ih (nodes t) n p).
Proof.
  induction n as [n IH] using node_ind'. intros p.
  unfold openBranch. rewrite visibleBranch_eq. simpl.
  assert (lastDescendant ih (nodes t) n p =
          if ih || expanded (nodes t p)
          then withLast (fun i c => lastDescendant ih (nodes t) c (i :: p))
                        p (kids n) 0
          else p) as ->.
  { destruct n as [k ti l s [ch|]]; simpl; [done|]. by destruct (ih || _). }
  destruct (ih || expanded (nodes t p)); [|done].
  pose proof (openLevel_last (kids n) p p IH 0) as Hl.
  unfold openLevel in Hl.
  destruct (kids n) as [|c l]; [done|].
  exact (last_app_keeps [p] _ _ Hl).
Qed.

Lemma openLevel_sorted p (l : list node) :
  Forall (fun c => forall q, getNode (root t) q = Some c -> q <> [] ->
            Sorted follows (openBranch c q).*1) l ->
  forall i0,
    (forall i c, l !! i = Some c ->
       getNode (root t) ((i0 + i) :: p) = Some c) ->
    Sorted follows (openLevel l p i0).*1.
Proof.
  induction 1 as [|c l Hc Hl IH]; intros i0 Hvalid; [constructor|].
  unfold openLevel. cbn [visibleLevel]. rewrite fmap_app.
  assert (getNode (root t) (i0 :: p) = Some c) as Hc0.
  { specialize (Hvalid 0 c eq_refl). by rewrite Nat.add_0_r in Hvalid. }
  apply Sorted_glue.
  - by apply Hc.
  - apply IH. intros i c' Hi. replace (S i0 + i) with (i0 + S i) by lia.
    by apply (Hvalid (S i)).
  - intros a b Ha Hb.
    pose proof (openBranch_last c (i0 :: p)) as Hlast.
    unfold openBranch in Hlast. rewrite Hlast in Ha. injection Ha as <-.
    pose proof (openLevel_head l p (S i0)) as Hhead.
    unfold openLevel in Hhead. rewrite Hhead in Hb.
    destruct l as [|c' l]; [done|]. injection Hb as <-.
    unfold follows, stepUp. by rewrite Hc0.
Qed.

Lemma openBranch_sorted n : forall p,
  getNode (root t) p = Some n -> p <> [] ->
  Sorted follows (openBranch n p).*1.
Proof.
  induction n as [n IH] using node_ind'. intros p Hp Hne.
  unfold openBranch. rewrite visibleBranch_eq. cbn [andb].
  destruct (ih || expanded (nodes t p)); [|by repeat constructor].
  rewrite fmap_cons. cbn [fst].
  apply (Sorted_glue follows [p]).
  - by repeat constructor.
  - apply (openLevel_sorted p (kids n) IH 0).
    intros i c Hi. simpl. by rewrite Hp.
  - intros a b [= <-] Hb.
    pose proof (openLevel_head (kids n) p 0) as Hhead.
    unfold openLevel in Hhead. rewrite Hhead in Hb.
    destruct (kids n) as [|c' l]; [done|]. injection Hb as <-.
    unfold follows, stepUp. by destruct p.
Qed.

End BottomUp.
(** ** Rows and the open display order *)

Lemma visibleBranch_suffix cf ih t n : forall p qm,
  qm ∈ visibleBranch cf ih t n p -> p `suffix_of` qm.1.
Proof.
  induction n as [n IH] using node_ind'. intros p qm.
  rewrite visibleBranch_eq. destruct (cf && _); [by intros ?%elem_of_nil|].
  rewrite elem_of_cons. intros [->|Hin]; [done|].
  destruct (ih || _); [|by apply elem_of_nil in Hin].
  revert Hin. generalize 0.
  induction IH as [|c l Hc Hl IHl]; intros i; simpl;
    [by intros ?%elem_of_nil|].
  rewrite elem_of_app. intros [Hin|Hin].
  - apply suffix_cons_l with (x := i). by apply Hc.
  - by apply (IHl (S i)).
Qed.

Lemma visibleLevel_suffix cf ih t (l : list node) p qm : forall i0,
  qm ∈ visibleLevel cf ih t l p i0 ->
  exists i, i0 <= i /\ (i :: p) `suffix_of` qm.1.
Proof.
  induction l as [|c l IH]; intros i0; simpl; [by intros ?%elem_of_nil|].
  rewrite elem_of_app. intros [Hin|Hin].
  - exists i0. split; [done|]. by apply visibleBranch_suffix in Hin.
  - destruct (IH _ Hin) as (i & Hi & Hs). exists i. split; [lia|done].
Qed.

Lemma isVisible_suffix t (d p : list nat) :
  p <> [] -> isVisible t (d ++ p) = true -> isVisible t p = true.
Proof.
  intros Hp. induction d as [|j d IH]; [done|]. simpl.
  intros [_ H]%andb_true_iff. apply IH.
  destruct (d ++ p) eqn:E; [by destruct d|].
  by apply andb_true_iff in H as [_ H].
Qed.

Lemma filter_none {X} (P : X -> Prop) `{forall x, Decision (P x)}
    (l : list X) :
  (forall x, x ∈ l -> ~ P x) -> filter P l = [].
Proof.
  induction l as [|x l IH]; intros Hl; [done|].
  rewrite filter_cons_False by (apply Hl; left). apply IH.
  intros y Hy. apply Hl. by right.
Qed.

Lemma filter_all {X} (P : X -> Prop) `{forall x, Decision (P x)}
    (l : list X) :
  (forall x, x ∈ l -> P x) -> filter P l = l.
Proof.
  induction l as [|x l IH]; intros Hl; [done|].
  rewrite filter_cons_True by (apply Hl; left). f_equal. apply IH.
  intros y Hy. apply Hl. by right.
Qed.

Lemma rows_filter_level ih t (l : list node) p :
  Forall (fun c => forall i, parentShows ih t p ->
    filter (shown ih t) (visibleBranch false ih t c (i :: p))
    = visibleBranch (negb ih && enableFilter t) ih t c (i :: p)) l ->
  forall i0, parentShows ih t p ->
    filter (shown ih t) (visibleLevel false ih t l p i0)
    = visibleLevel (negb ih && enableFilter t) ih t l p i0.
Proof.
  induction 1 as [|c l Hc Hl IH]; intros i0 Hp; [done|].
  cbn [visibleLevel]. rewrite filter_app, Hc, IH; done.
Qed.

Lemma rows_filter_branch ih t n : forall i p,
  parentShows ih t p ->
  filter (shown ih t) (visibleBranch false ih t n (i :: p))
  = visibleBranch (negb ih && enableFilter t) ih t n (i :: p).
Proof.
  induction n as [n IH] using node_ind'. intros i p Hp.
  rewrite !visibleBranch_eq. cbn [andb].
  assert ((ih || isVisible t (i :: p)) = true
          <-> negb ih && enableFilter t && filteredOut t (i :: p) = false)
    as Hshown.
  { cbn [isVisible]. destruct ih; [done|]. simpl.
    destruct Hp as [Hp|?]; [|done].
    rewrite Hp, andb_true_r. apply negb_true_iff. }
  destruct (negb ih && enableFilter t && filteredOut t (i :: p)) eqn:Hhide.
  - (* hidden by the filter, together with everything below *)
    assert (ih = false /\ isVisible t (i :: p) = false) as [-> Hinv].
    { destruct ih; [done|]. split; [done|].
      simpl in *. by rewrite Hhide. }
    apply filter_none. intros qm Hqm.
    apply elem_of_cons in Hqm as [->|Hqm]; cbn [fst orb];
      [by rewrite Hinv|].
    destruct (expanded (nodes t (i :: p))); [|by apply elem_of_nil in Hqm].
    apply visibleLevel_suffix in Hqm as (j & _ & [d Hd]).
    rewrite Hd. intros Hvis.
    change (d ++ j :: i :: p) with (d ++ [j] ++ i :: p) in Hvis.
    rewrite app_assoc in Hvis.
    apply isVisible_suffix in Hvis; [|done]. by rewrite Hinv in Hvis.
  - rewrite filter_cons_True by by apply Hshown. f_equal.
    destruct (ih || expanded (nodes t (i :: p))) eqn:Hopen; [|done].
    apply rows_filter_level.
    + eapply Forall_impl; [exact IH|]. intros c Hc j Hj. by apply Hc.
    + destruct ih; [by right|left]. simpl in Hopen. rewrite Hopen. simpl.
      simpl in Hshown. by apply Hshown.
Qed.

(** The rows are the nodes of the open display order on which the
    bottom-up step stops. *)
Lemma rows_filter ih t :
  rows ih t =
  match WunderbaumNode.hasChildren (root t) with
  | Some true =>
      filter (shown ih t) (visibleLevel false ih t (kids (root t)) [] 0)
  | _ => []
  end.
Proof.
  unfold rows. destruct (WunderbaumNode.hasChildren _) as [[|]|]; [|done..].
  symmetry. apply rows_filter_level; [|by left].
  apply Forall_forall. intros c _ i Hp. by apply rows_filter_branch.
Qed.
(** ** Walking the rows upwards *)

Lemma Sorted_snoc_inv {X} (R : X -> X -> Prop) (l : list X) m b :
  Sorted R (l ++ [m; b]) -> R m b /\ Sorted R (l ++ [m]).
Proof.
  induction l as [|x l IH]; simpl; intros H.
  - inversion H as [|? ? Hs Hhd]; subst. inversion Hhd; subst.
    split; [done|]. by repeat constructor.
  - inversion H as [|? ? Hs Hhd]; subst. destruct (IH Hs) as [Hmb Hl].
    split; [done|]. constructor; [done|].
    destruct l; simpl in *; inversion Hhd; by constructor.
Qed.

Lemma Sorted_prefix {X} (R : X -> X -> Prop) (l1 l2 : list X) :
  Sorted R (l1 ++ l2) -> Sorted R l1.
Proof.
  induction l1 as [|x l1 IH]; simpl; intros H; [constructor|].
  inversion H as [|? ? Hs Hhd]; subst. constructor; [by apply IH|].
  destruct l1; simpl in *; [constructor|]. inversion Hhd; by constructor.
Qed.

Lemma filter_last_split {X} (P : X -> Prop) `{forall x, Decision (P x)}
    (l : list X) fl y :
  filter P l = fl ++ [y] ->
  exists l1 l2, l = l1 ++ [y] ++ l2 /\ filter P l1 = fl /\ P y
                /\ filter P l2 = [].
Proof.
  induction l as [|x l IH] using rev_ind; [by destruct fl|].
  rewrite filter_app. destruct (decide (P x)) as [Hx|Hx].
  - rewrite filter_cons_True by done. rewrite filter_nil.
    intros [<- [= ->]]%app_inj_tail. exists l, []. by rewrite filter_nil.
  - rewrite filter_cons_False by done. rewrite filter_nil, app_nil_r.
    intros (l1 & l2 & -> & Hl1 & Hy & Hl2)%IH.
    exists l1, (l2 ++ [x]). rewrite <- !app_assoc. split; [done|].
    split; [done|]. split; [done|].
    rewrite filter_app, Hl2. by rewrite filter_cons_False.
Qed.

Lemma filter_fst {X Y} (P : X -> Prop) `{forall x, Decision (P x)}
    (l : list (X * Y)) :
  (filter (fun xy => P xy.1) l).*1 = filter P l.*1.
Proof.
  induction l as [|[x y] l IH]; [done|]. rewrite fmap_cons. simpl fst.
  destruct (decide (P x)) as [Hx|Hx].
  - rewrite !filter_cons_True by done. by rewrite fmap_cons, IH.
  - by rewrite !filter_cons_False.
Qed.

Section WalkUp.
Variables (ih : bool) (t : tree).

Let follows (a b : list nat) : Prop := stepUp ih t b = Returned (Some a).
Let stops (q : list nat) : Prop := (ih || isVisible t q) = true.

Hypothesis root_has_children :
  WunderbaumNode.hasChildren (root t) = Some true.

(** From the row [b], whose predecessors in the open display order are
    [pre], one bottom-up step reaches the last node of [pre] on which it
    stops. *)
Lemma prevRow_back fuel : forall pre b,
  Sorted follows (pre ++ [b]) ->
  (forall x, head (pre ++ [b]) = Some x -> stepUp ih t x = Returned None) ->
  length pre < fuel ->
  prevRow fuel ih t b = Returned (last (filter stops pre)).
Proof.
  assert (forall pre b o,
    Sorted follows (pre ++ [b]) ->
    (forall x, head (pre ++ [b]) = Some x -> stepUp ih t x = Returned None) ->
    length pre < fuel ->
    upLoop recordRow ih fuel b (t, o)
    = Returned (true, (t, match last (filter stops pre) with
                          | Some y => Some y
                          | None => o
                          end))) as H.
  { revert fuel. intros fuel pre. revert fuel.
    induction pre as [|m pre IH] using rev_ind; intros fuel b o Hs Hhd Hfuel.
    - destruct fuel; [simpl in Hfuel; lia|]. simpl.
      by rewrite (Hhd b).
    - destruct fuel; [simpl in Hfuel; lia|].
      rewrite <- app_assoc in Hs. simpl in Hs.
      apply Sorted_snoc_inv in Hs as [Hmb Hs].
      cbn [upLoop fst]. unfold follows in Hmb. rewrite Hmb.
      rewrite filter_app. destruct (decide (stops m)) as [Hm|Hm].
      + rewrite filter_cons_True by done. rewrite filter_nil, last_snoc.
        unfold stops in Hm.
        assert (negb ih && negb (isVisible t m) = false) as ->.
        { destruct ih; [done|]. simpl in *. by rewrite Hm. }
        done.
      + rewrite filter_cons_False by done. rewrite filter_nil, app_nil_r.
        assert (negb ih && negb (isVisible t m) = true) as ->.
        { unfold stops in Hm. destruct ih; [done|]. simpl in *.
          by destruct (isVisible t m). }
        apply IH; [done| |rewrite length_app in Hfuel; simpl in Hfuel; lia].
        intros x Hx. apply Hhd. rewrite <- app_assoc.
        destruct pre; simpl in *; done. }
  intros pre b Hs Hhd Hfuel.
  unfold prevRow, visitRows. simpl fst. rewrite root_has_children.
  cbn [reverse upOpts]. unfold _visitRowsUp. simpl.
  rewrite (H pre b None Hs Hhd Hfuel).
  by destruct (last _).
Qed.

Lemma walkUp_back fuel steps : forall pre b,
  Sorted follows (pre ++ [b]) ->
  (forall x, head (pre ++ [b]) = Some x -> stepUp ih t x = Returned None) ->
  length pre < fuel ->
  length (filter stops pre) <= steps ->
  walkUp steps fuel ih t b = b :: rev (filter stops pre).
Proof.
  induction steps as [|k IH]; intros pre b Hs Hhd Hfuel Hsteps.
  - destruct (filter stops pre); [done|simpl in Hsteps; lia].
  - cbn [walkUp]. rewrite (prevRow_back fuel pre b Hs Hhd Hfuel).
    destruct (filter stops pre) as [|z fl'] eqn:Hf using rev_ind; [done|].
    clear IHfl'. rewrite last_snoc, rev_unit.
    apply filter_last_split in Hf as (l1 & l2 & -> & Hl1 & Hz & Hl2).
    f_equal. rewrite <- Hl1. apply IH.
    + rewrite <- !app_assoc in Hs. rewrite app_assoc in Hs.
      by apply Sorted_prefix in Hs.
    + intros x Hx. apply Hhd. rewrite <- !app_assoc.
      destruct l1; simpl in *; done.
    + rewrite !length_app in Hfuel. lia.
    + rewrite length_app in Hsteps. simpl in Hsteps. subst fl'. lia.
Qed.

End WalkUp.
Lemma visibleLevel_length cf ih t (l : list node) p :
  Forall (fun c => forall q,
            length (visibleBranch cf ih t c q) <= S (length (descendants c q)))
         l ->
  forall i, length (visibleLevel cf ih t l p i) <= length (levelRefs l p i).
Proof.
  induction 1 as [|c l Hc Hl IH]; intros i; [done|].
  cbn [visibleLevel levelRefs]. rewrite !length_app.
  specialize (Hc (i :: p)). specialize (IH (S i)). simpl. lia.
Qed.

Lemma visibleBranch_length cf ih t n : forall p,
  length (visibleBranch cf ih t n p) <= S (length (descendants n p)).
Proof.
  induction n as [n IH] using node_ind'. intros p.
  rewrite visibleBranch_eq, descendants_eq.
  destruct (cf && _); [simpl; lia|]. simpl.
  destruct (ih || _); [|simpl; lia].
  pose proof (visibleLevel_length cf ih t (kids n) p IH 0). lia.
Qed.

Lemma filter_fst_iff {X Y} (P : X -> Prop) (Q : X * Y -> Prop)
    `{forall x, Decision (P x)} `{forall xy, Decision (Q xy)}
    (l : list (X * Y)) :
  (forall xy, Q xy <-> P xy.1) ->
  (filter Q l).*1 = filter P l.*1.
Proof.
  intros HQ. induction l as [|[x y] l IH]; [done|]. rewrite fmap_cons. simpl fst.
  destruct (decide (P x)) as [Hx|Hx].
  - rewrite (filter_cons_True Q) by (by apply HQ).
    rewrite (filter_cons_True P) by done. by rewrite fmap_cons, IH.
  - rewrite (filter_cons_False Q) by (by rewrite HQ).
    by rewrite (filter_cons_False P).
Qed.

(** C4.  With enough fuel for the loop of [_visitRowsUp] (the number of
    nodes of the tree suffices), for every tree, every [includeHidden]
    flag, every expansion state and whether or not the filter is active:
    starting at the last row of the top-down traversal and stepping
    bottom-up one row at a time yields exactly the top-down sequence
    reversed, and from its first row the bottom-up step returns without
    calling the callback.  For a tree without rows both sequences are
    empty. *)
Theorem rows_up_reverse_rows_down ih t fuel :
  treeSize t <= fuel ->
  rowsUp fuel ih t = rev (rowsDown ih t)
  /\ match head (rowsDown ih t) with
     | Some x => prevRow fuel ih t x = Returned None
     | None => True
     end.
Proof.
  intros Hfuel. unfold rowsUp.
  rewrite !rowsDown_rows, rows_filter.
  destruct (WunderbaumNode.hasChildren (root t)) as [[|]|] eqn:Hhc;
    [|done..].
  set (stops := fun q : list nat => (ih || isVisible t q) = true).
  assert ((filter (shown ih t)
             (visibleLevel false ih t (kids (root t)) [] 0)).*1
          = filter stops (visibleLevel false ih t (kids (root t)) [] 0).*1)
    as -> by (by apply filter_fst_iff).
  set (open := (visibleLevel false ih t (kids (root t)) [] 0).*1).
  assert (Sorted (fun a b => stepUp ih t b = Returned (Some a)) open)
    as Hsorted.
  { apply (openLevel_sorted ih t [] (kids (root t))); [|done].
    apply Forall_forall. intros c _ q. apply openBranch_sorted. }
  assert (forall x, head open = Some x -> stepUp ih t x = Returned None)
    as Hhead.
  { intros x. subst open. rewrite openLevel_head.
    destruct (kids (root t)); [done|]. by intros [= <-]. }
  assert (length open <= fuel) as Hlen.
  { subst open. rewrite length_fmap.
    etransitivity; [|exact Hfuel]. unfold treeSize.
    rewrite descendants_eq. apply visibleLevel_length.
    apply Forall_forall. intros c _ q. apply visibleBranch_length. }
  assert (forall l1 b l2, open = l1 ++ [b] ++ l2 ->
            Sorted (fun a b => stepUp ih t b = Returned (Some a)) (l1 ++ [b])
            /\ (forall x, head (l1 ++ [b]) = Some x ->
                  stepUp ih t x = Returned None)
            /\ length l1 < fuel) as Hsplit.
  { intros l1 b l2 Hopen. rewrite Hopen in Hsorted, Hhead, Hlen.
    rewrite app_assoc in Hsorted. apply Sorted_prefix in Hsorted.
    split; [done|]. split.
    - intros x Hx. apply Hhead. rewrite app_assoc.
      destruct l1; simpl in *; done.
    - rewrite !length_app in Hlen. simpl in Hlen. lia. }
  split.
  - destruct (filter stops open) as [|b fl _] eqn:Hf using rev_ind; [done|].
    rewrite last_snoc, rev_unit.
    apply filter_last_split in Hf as (l1 & l2 & Hopen & Hl1 & Hb & Hl2).
    destruct (Hsplit l1 b l2 Hopen) as (Hs & Hh & Hl).
    rewrite (walkUp_back ih t Hhc fuel _ l1 b Hs Hh Hl).
    + by rewrite <- Hl1.
    + rewrite <- Hl1, length_app. unfold stops. lia.
  - destruct (filter stops open) as [|x fl] eqn:Hf; [done|]. simpl.
    assert (exists l1 l2, open = l1 ++ [x] ++ l2 /\ filter stops l1 = [])
      as (l1 & l2 & Hopen & Hl1).
    { clear -Hf. induction open as [|y l IH]; [done|].
      destruct (decide (stops y)) as [Hy|Hy].
      - rewrite filter_cons_True in Hf by done. injection Hf as -> _.
        by exists [], l.
      - rewrite filter_cons_False in Hf by done.
        destruct (IH Hf) as (l1 & l2 & -> & Hl1).
        exists (y :: l1), l2. split; [done|].
        by rewrite filter_cons_False. }
    destruct (Hsplit l1 x l2 Hopen) as (Hs & Hh & Hl).
    rewrite (prevRow_back ih t Hhc fuel l1 x Hs Hh Hl).
    f_equal. exact (f_equal last Hl1).
Qed.

Lemma rows_up_reverse_rows_down_witness :
  rowsUp 5 false (newTree scenarioRoot) = rev (rowsDown false (newTree scenarioRoot))
  /\ match head (rowsDown false (newTree scenarioRoot)) with
     | Some x => prevRow 5 false (newTree scenarioRoot) x = Returned None
     | None => True
     end.
Proof.
  apply (rows_up_reverse_rows_down false (newTree scenarioRoot) 5).
  vm_compute. lia.
Defined.

(** ** [renumber] *)












Lemma visibleLevel_sublist cf ih t (l : list node) p :
  Forall (fun c => forall q,
            (visibleBranch cf ih t c q).*1 `sublist_of` q :: descendants c q)
         l ->
  forall i, (visibleLevel cf ih t l p i).*1 `sublist_of` levelRefs l p i.
Proof.
  induction 1 as [|c l Hc Hl IH]; intros i; [done|].
  cbn [visibleLevel levelRefs]. rewrite fmap_app.
  apply sublist_app; [apply Hc|apply IH].
Qed.

Lemma visibleBranch_sublist cf ih t n : forall p,
  (visibleBranch cf ih t n p).*1 `sublist_of` p :: descendants n p.
Proof.
  induction n as [n IH] using node_ind'. intros p.
  rewrite visibleBranch_eq, descendants_eq.
  destruct (cf && _); [apply sublist_nil_l|].
  rewrite fmap_cons. apply sublist_skip.
  destruct (ih || _); [|apply sublist_nil_l].
  by apply visibleLevel_sublist.
Qed.

(** No node is a row twice. *)
Lemma NoDup_rows ih t : NoDup (rows ih t).*1.
Proof.
  unfold rows. destruct (WunderbaumNode.hasChildren (root t)) as [[|]|];
    try apply NoDup_nil_2.
  eapply sublist_NoDup; [apply (NoDup_descendants (root t) [])|].
  rewrite descendants_eq. apply visibleLevel_sublist.
  apply Forall_forall. intros c _ q. apply visibleBranch_sublist.
Qed.




(** Without a second top node the pass throws on its first assignment. *)
Lemma renumber_throws opts t :
  kids (root t) !! 1 = None -> renumber opts t = Threw.
Proof.
  intros H. unfold renumber. rewrite H.
  by destruct (startIdx opts), (endIdx opts).
Qed.

(** C3.  The folder A of the tree [[A[C],B]] is expanded and the tree is
    numbered for rows 0 to 10: the rows are A, C, B and C owns a row
    element.  A is collapsed and the tree is numbered for the range from
    row 0 to row 0.  The pass returns, the rows are A and B, and the list is
    two rows high; B, whose new index 1 is outside the range, owns no row
    element; but C, which the pass no longer reaches, still carries index
    1 and still owns its row element, outside the range. *)
Theorem renumber_keeps_row_element_of_hidden_node :
  match renumbered (rangeOf 0 10)
          (setExpanded [0] true (newTree folderFirstRoot)) with
  | Some t2 =>
      rowsDown false t2 = [[0]; [0; 0]; [1]]
      /\ _rowElem (nodes t2 [0; 0]) <> None
      /\ match renumbered (rangeOf 0 0) (setExpanded [0] false t2) with
         | Some t4 =>
             rowsDown false t4 = [[0]; [1]]
             /\ listHeight t4 = 2 * ROW_HEIGHT
             /\ _rowElem (nodes t4 [0]) <> None
             /\ _rowElem (nodes t4 [1]) = None
             /\ _rowIdx (nodes t4 [0; 0]) = 1
             /\ ~ withinRange (ofIdx 0) (ofIdx 0) 1
             /\ _rowElem (nodes t4 [0; 0]) <> None
         | None => False
         end
  | None => False
  end.
Proof.
  vm_compute. repeat split; try done.
  intros [_ H]. done.
Qed.

(** C9.  In the freshly loaded tree [[A,B[C]]] the folder B is collapsed and
    the rows are A and B.  One [renumber] pass leaves B expanded, and C has
    become a row.  On the tree [[A]], which has no second top node, the
    pass throws. *)
Theorem renumber_expands_second_top_node :
  expanded (nodes (newTree folderSecondRoot) [1]) = false
  /\ rowsDown false (newTree folderSecondRoot) = [[0]; [1]]
  /\ match renumbered (rangeOf 0 10) (newTree folderSecondRoot) with
     | Some t' =>
         expanded (nodes t' [1]) = true
         /\ rowsDown false t' = [[0]; [1]; [0; 1]]
     | None => False
     end
  /\ renumber (rangeOf 0 10) (newTree singleRoot) = Threw.
Proof. vm_compute. repeat split. Qed.

(** ** The order of [visit], [visitParents] and [visitSiblings] *)

Lemma upToFalse_app answerOf l1 l2 :
  upToFalse answerOf (l1 ++ l2) =
  if stopped answerOf l1 then upToFalse answerOf l1
  else l1 ++ upToFalse answerOf l2.
Proof.
  induction l1 as [|q l1 IH]; [done|]. simpl.
  destruct (isFalse (answerOf q)); simpl; [done|]. rewrite IH.
  by destruct (stopped answerOf l1).
Qed.

Lemma stopped_app answerOf l1 l2 :
  stopped answerOf (l1 ++ l2) = stopped answerOf l1 || stopped answerOf l2.
Proof. apply existsb_app. Qed.

Lemma ancestors_app (d r : list nat) :
  ancestors (d ++ r) = map (fun x => x ++ r) (ancestors d) ++ ancestors r.
Proof. induction d as [|i d IH]; [done|]. simpl. by rewrite IH. Qed.

Lemma ancestors_shorter (p a : list nat) :
  a ∈ ancestors p -> length a < length p.
Proof.
  induction p as [|i p IH]; simpl; [by intros ?%elem_of_nil|].
  intros [->|Ha]%elem_of_cons; [lia|]. specialize (IH Ha). lia.
Qed.

Lemma existsb_false {X} (f : X -> bool) (l : list X) :
  (forall x, x ∈ l -> f x = false) -> existsb f l = false.
Proof.
  induction l as [|x l IH]; intros H; [done|]. simpl.
  rewrite (H x) by apply list_elem_of_here. apply IH.
  intros y Hy. apply H. by apply list_elem_of_further.
Qed.

Lemma existsb_map {X Y} (f : Y -> bool) (g : X -> Y) (l : list X) :
  existsb f (map g l) = existsb (fun x => f (g x)) l.
Proof. induction l as [|x l IH]; [done|]. simpl. by rewrite IH. Qed.

Lemma existsb_ext' {X} (f g : X -> bool) (l : list X) :
  (forall x, f x = g x) -> existsb f l = existsb g l.
Proof. intros H. induction l as [|x l IH]; [done|]. simpl. by rewrite H, IH. Qed.

(** [belowSkip] in terms of the path [d] from [p] down to the node. *)
Lemma belowSkip_relative answerOf p b (d : list nat) :
  belowSkip answerOf p b (d ++ p) =
  existsb (fun d' => (b || negb (bool_decide (d' = [])))
                     && isSkip (answerOf (d' ++ p)))
          (ancestors d).
Proof.
  unfold belowSkip. rewrite ancestors_app, existsb_app, existsb_map.
  rewrite (existsb_false _ (ancestors p)), orb_false_r.
  - apply existsb_ext'. intros d'.
    rewrite bool_decide_eq_true_2 by (by apply suffix_app_r). simpl.
    do 3 f_equal. unfold ref_eqb. apply bool_decide_ext. split.
    + intros H. apply (f_equal length) in H. rewrite length_app in H.
      destruct d'; [done|simpl in H; lia].
    + by intros ->.
  - intros a Ha%ancestors_shorter.
    rewrite bool_decide_eq_false_2; [done|].
    intros Hs%suffix_length. lia.
Qed.

Lemma belowSkip_child answerOf p b i (e : list nat) :
  belowSkip answerOf p b (e ++ i :: p) =
  belowSkip answerOf (i :: p) true (e ++ i :: p)
  || (b && isSkip (answerOf p)).
Proof.
  rewrite (belowSkip_relative answerOf (i :: p) true e).
  replace (e ++ i :: p) with ((e ++ [i]) ++ p) by by rewrite <- app_assoc.
  rewrite belowSkip_relative, ancestors_app, existsb_app, existsb_map.
  simpl. rewrite orb_false_r. f_equal; [|by rewrite orb_false_r].
  apply existsb_ext'. intros d'. rewrite <- app_assoc. simpl.
  rewrite bool_decide_eq_false_2 by by destruct d'.
  by rewrite orb_true_r.
Qed.

Lemma filter_ext_in {X} (P Q : X -> Prop) `{forall x, Decision (P x)}
    `{forall x, Decision (Q x)} (l : list X) :
  (forall x, x ∈ l -> (P x <-> Q x)) -> filter P l = filter Q l.
Proof.
  induction l as [|x l IH]; intros Hl; [done|].
  assert (filter P l = filter Q l) as Hrec.
  { apply IH. intros y Hy. apply Hl. by right. }
  destruct (decide (P x)) as [Hx|Hx].
  - rewrite (filter_cons_True P) by done.
    rewrite (filter_cons_True Q) by (apply Hl; [left|done]).
    by rewrite Hrec.
  - rewrite (filter_cons_False P) by done.
    rewrite (filter_cons_False Q); [done|].
    intros HQ. apply Hx. apply Hl; [left|done].
Qed.

Lemma upToFalse_all answerOf l :
  stopped answerOf l = false -> upToFalse answerOf l = l.
Proof.
  induction l as [|q l IH]; [done|]. simpl.
  destruct (isFalse (answerOf q)); [done|]. simpl. intros H. by rewrite IH.
Qed.

Section VisitOrder.
Variable answerOf : list nat -> ctl.

Lemma belowSkip_self p b : belowSkip answerOf p b p = false.
Proof. apply (belowSkip_relative answerOf p b []). Qed.

Lemma visitOrder_level (l : list node) p b : forall i,
  filter (fun q => belowSkip answerOf p b q = false) (levelRefs l p i)
  = if b && isSkip (answerOf p) then []
    else visitOrderLevel answerOf l p i.
Proof.
  induction l as [|c l IH]; intros i; simpl.
  - by destruct (b && _).
  - rewrite app_comm_cons, filter_app, IH.
    assert (forall q, q ∈ (i :: p) :: descendants c (i :: p) ->
              belowSkip answerOf p b q
              = belowSkip answerOf (i :: p) true q
                || (b && isSkip (answerOf p))) as Hq.
    { intros q Hq. apply (elem_of_allRefs c (i :: p) q) in Hq
        as (e & m & -> & _). apply belowSkip_child. }
    destruct (b && isSkip (answerOf p)) eqn:Hskip.
    + rewrite app_nil_r. apply filter_none. intros q Hin.
      rewrite (Hq q Hin), orb_true_r. done.
    + f_equal. unfold visitOrder. simpl. apply filter_ext_in.
      intros q Hin. by rewrite (Hq q Hin), orb_false_r.
Qed.

Lemma visitOrder_eq n p b :
  visitOrder answerOf n p b =
  (if b then [p] else [])
  ++ (if b && isSkip (answerOf p) then []
      else visitOrderLevel answerOf (kids n) p 0).
Proof.
  unfold visitOrder. rewrite filter_app, descendants_eq, visitOrder_level.
  f_equal. destruct b; [|done].
  rewrite filter_cons_True by apply belowSkip_self. done.
Qed.

Let visitDone (n : node) : Prop :=
  forall p b l0, exists r,
    WunderbaumNode.visit (recordVisit answerOf) n p b l0
    = (r, l0 ++ upToFalse answerOf (visitOrder answerOf n p b))
    /\ (r = RFalse <-> stopped answerOf (visitOrder answerOf n p b) = true).

Lemma visit_children p (l : list node) :
  Forall visitDone l ->
  forall i res l0, res <> RFalse ->
  exists r,
    forChildren (fun i c => WunderbaumNode.visit (recordVisit answerOf) c
                              (i :: p) true) l i res l0
    = (r, l0 ++ upToFalse answerOf (visitOrderLevel answerOf l p i))
    /\ (r = RFalse
        <-> stopped answerOf (visitOrderLevel answerOf l p i) = true).
Proof.
  induction 1 as [|c l Hc Hl IH]; intros i res l0 Hres; simpl.
  - exists res. rewrite app_nil_r. split; [done|]. split; [done|done].
  - destruct (Hc (i :: p) true l0) as (r1 & -> & Hr1).
    rewrite upToFalse_app, stopped_app.
    destruct (stopped answerOf (visitOrder answerOf c (i :: p) true))
      eqn:Hstop.
    + assert (r1 = RFalse) as -> by by apply Hr1.
      exists RFalse. done.
    + assert (r1 <> RFalse) as Hne.
      { intros Hr. apply Hr1 in Hr. done. }
      rewrite (upToFalse_all _ _ Hstop).
      destruct (IH (S i) r1 (l0 ++ visitOrder answerOf c (i :: p) true) Hne)
        as (r & Heq & Hr).
      exists r. rewrite <- app_assoc in Heq. simpl.
      destruct r1; [done|..]; by rewrite Heq.
Qed.

Lemma visit_done n : visitDone n.
Proof.
  induction n as [n IH] using node_ind'. intros p b l0.
  rewrite visit_eq, visitOrder_eq. cbv zeta.
  destruct b; simpl.
  - change (recordVisit answerOf p n l0) with (answerOf p, l0 ++ [p]).
    destruct (answerOf p) eqn:Hp; simpl.
    + exists RFalse. done.
    + exists RSkip. split; [done|]. by split.
    + destruct (visit_children p (kids n) IH 0 ROther (l0 ++ [p]))
        as (r & -> & Hr); [done|].
      exists r. by rewrite <- app_assoc.
  - by apply visit_children.
Qed.

End VisitOrder.

(** X1.  [node.visit] with a callback that records its calls: the callback
    is called on the node itself (if [includeSelf]) and on its descendants
    in hierarchical order, parents before children and siblings in array
    order, each at most once; nothing below a node that answered ["skip"]
    is called; the calls end with the first node that answers [false]; and
    [visit] returns [false] exactly when some call answered [false]. *)
Theorem visit_order answerOf n p includeSelf l :
  snd (WunderbaumNode.visit (recordVisit answerOf) n p includeSelf l)
  = l ++ upToFalse answerOf (visitOrder answerOf n p includeSelf)
  /\ (fst (WunderbaumNode.visit (recordVisit answerOf) n p includeSelf l)
      = RFalse
      <-> stopped answerOf (visitOrder answerOf n p includeSelf) = true).
Proof.
  destruct (visit_done answerOf n p includeSelf l) as (r & -> & Hr). done.
Qed.

(** X2.  [tree.visit] with a callback that never answers [false] or
    ["skip"] calls it exactly once on every node below the system root, in
    hierarchical order, never on the system root, and does not return
    [false]. *)
Theorem tree_visit_all answerOf top l :
  (forall q, answerOf q = ROther) ->
  snd (Wunderbaum.visit (recordVisit answerOf) top l)
  = l ++ descendants top []
  /\ NoDup (descendants top [])
  /\ ([] ∉ descendants top [])
  /\ fst (Wunderbaum.visit (recordVisit answerOf) top l) <> RFalse.
Proof.
  intros Hans. unfold Wunderbaum.visit.
  destruct (visit_done answerOf top [] false l) as (r & -> & Hr).
  assert (visitOrder answerOf top [] false = descendants top []) as Hord.
  { unfold visitOrder. simpl. apply filter_all. intros q _.
    unfold belowSkip. apply existsb_false. intros a _.
    by rewrite Hans, andb_false_r. }
  rewrite Hord in *.
  assert (stopped answerOf (descendants top []) = false) as Hstop.
  { apply existsb_false. intros q _. by rewrite Hans. }
  simpl. rewrite (upToFalse_all _ _ Hstop).
  split; [done|]. split; [apply NoDup_descendants|]. split.
  - intros H%descendants_longer. simpl in H. lia.
  - intros Hr'. apply Hr in Hr'. congruence.
Qed.

Lemma tree_visit_all_witness :
  snd (Wunderbaum.visit (recordVisit (fun _ => ROther)) scenarioRoot [])
  = [] ++ descendants scenarioRoot []
  /\ NoDup (descendants scenarioRoot [])
  /\ ([] ∉ descendants scenarioRoot [])
  /\ fst (Wunderbaum.visit (recordVisit (fun _ => ROther)) scenarioRoot [])
     <> RFalse.
Proof. apply (tree_visit_all (fun _ => ROther) scenarioRoot []). reflexivity. Defined.

Lemma parentsLoop_order answerOf self : forall l,
  WunderbaumNode.parentsLoop (recordParent answerOf) self l
  = (negb (stopped answerOf (ancestors self)),
     l ++ upToFalse answerOf (ancestors self)).
Proof.
  induction self as [|i p IH]; intros l; simpl.
  - by rewrite app_nil_r.
  - destruct (answerOf p) eqn:Hp; simpl; [done|..];
      rewrite IH; by rewrite <- app_assoc.
Qed.

(** X3.  [visitParents] calls the callback on the node itself (if
    [includeSelf]) and then on its ancestors from the parent up to and
    including the system root; it stops after the first call that answers
    [false] and returns [false] exactly then; a ["skip"] answer has no
    effect. *)
Theorem visitParents_order answerOf self includeSelf l :
  WunderbaumNode.visitParents (recordParent answerOf) self includeSelf l
  = (negb (stopped answerOf
             ((if includeSelf then [self] else []) ++ ancestors self)),
     l ++ upToFalse answerOf
            ((if includeSelf then [self] else []) ++ ancestors self)).
Proof.
  unfold WunderbaumNode.visitParents. destruct includeSelf; simpl.
  - destruct (answerOf self) eqn:Hs; simpl; [done|..];
      rewrite parentsLoop_order; by rewrite <- app_assoc.
  - apply parentsLoop_order.
Qed.

Lemma siblingsFrom_order answerOf parent idx includeSelf (ac : list node) :
  forall i l,
  WunderbaumNode.siblingsFrom (recordVisit answerOf) parent idx includeSelf
    ac i l
  = (negb (stopped answerOf
             (filter (fun q => includeSelf = true \/ q <> idx :: parent)
                     (imap (fun j _ => (i + j) :: parent) ac))),
     l ++ upToFalse answerOf
            (filter (fun q => includeSelf = true \/ q <> idx :: parent)
                    (imap (fun j _ => (i + j) :: parent) ac))).
Proof.
  induction ac as [|n ac IH]; intros i l; simpl.
  - by rewrite app_nil_r.
  - rewrite Nat.add_0_r.
    assert (imap ((fun j _ => (i + j) :: parent) ∘ S) ac
            = imap (fun j (_ : node) => (S i + j) :: parent) ac) as ->.
    { apply imap_ext. intros j x _. simpl. f_equal. lia. }
    destruct (includeSelf || negb (i =? idx)) eqn:Hinc.
    + rewrite filter_cons_True.
      2:{ apply orb_true_iff in Hinc as [->|Hne]; [by left|right].
          apply negb_true_iff, Nat.eqb_neq in Hne. congruence. }
      simpl. destruct (answerOf (i :: parent)) eqn:Hp; simpl; [done|..];
        rewrite IH; by rewrite <- app_assoc.
    + rewrite filter_cons_False.
      2:{ apply orb_false_iff in Hinc as [-> Heq].
          apply negb_false_iff, Nat.eqb_eq in Heq. subst.
          intros [?|?]; done. }
      apply IH.
Qed.

(** X4.  [visitSiblings] calls the callback on the children of the node's
    parent in array order, leaving out the node itself unless
    [includeSelf]; it stops after the first call that answers [false] and
    returns [false] exactly then.  On the system root, which has no
    parent, it throws. *)
Theorem visitSiblings_order answerOf top idx parent pn includeSelf l :
  getNode top parent = Some pn ->
  WunderbaumNode.visitSiblings (recordVisit answerOf) top (idx :: parent)
    includeSelf l
  = Some (negb (stopped answerOf
                  (filter (fun q => includeSelf = true \/ q <> idx :: parent)
                          (imap (fun j _ => j :: parent) (kids pn)))),
          l ++ upToFalse answerOf
                 (filter (fun q => includeSelf = true \/ q <> idx :: parent)
                         (imap (fun j _ => j :: parent) (kids pn))))
  /\ WunderbaumNode.visitSiblings (recordVisit answerOf) top [] includeSelf l
     = None.
Proof.
  intros Hp. split; [|done]. unfold WunderbaumNode.visitSiblings.
  rewrite Hp. simpl. by rewrite siblingsFrom_order.
Qed.

Lemma visitSiblings_order_witness :
  WunderbaumNode.visitSiblings (recordVisit (fun _ => ROther)) scenarioRoot
    [0; 0] false []
  = Some (true, [[1; 0]])
  /\ WunderbaumNode.visitSiblings (recordVisit (fun _ => ROther))
       scenarioRoot [] false []
     = None.
Proof.
  apply (visitSiblings_order (fun _ => ROther) scenarioRoot 0 [0]
           (branch "A" [leaf "B"; branch "C" [leaf "D"]]) false []).
  reflexivity.
Defined.

(** ** Which nodes are rows *)

Lemma openAll_level t (l : list node) p :
  Forall (fun c => forall q,
            (visibleBranch false true t c q).*1 = q :: descendants c q) l ->
  forall i, (visibleLevel false true t l p i).*1 = levelRefs l p i.
Proof.
  induction 1 as [|c l Hc Hl IH]; intros i; [done|].
  cbn [visibleLevel levelRefs]. by rewrite fmap_app, Hc, IH.
Qed.

Lemma openAll_branch t n : forall p,
  (visibleBranch false true t n p).*1 = p :: descendants n p.
Proof.
  induction n as [n IH] using node_ind'. intros p.
  rewrite visibleBranch_eq, descendants_eq. cbn [andb orb].
  rewrite fmap_cons. cbn [fst].
  by rewrite (openAll_level t (kids n) p IH 0).
Qed.

(** X5.  With [includeHidden], [visitRows] calls the callback on every node
    below the system root, in hierarchical order, whatever the expansion
    and filter state; if the system root has no children (or, being lazy,
    is not loaded) there is no call. *)
Theorem rows_include_hidden t :
  rowsDown true t =
  match WunderbaumNode.hasChildren (root t) with
  | Some true => descendants (root t) []
  | _ => []
  end.
Proof.
  rewrite rowsDown_rows. unfold rows.
  destruct (WunderbaumNode.hasChildren (root t)) as [[|]|]; [|done..].
  simpl. rewrite descendants_eq. apply openAll_level.
  apply Forall_forall. intros c _ q. apply openAll_branch.
Qed.

Lemma suffix_between (a d : list nat) i p :
  p `suffix_of` a -> a `suffix_of` d ++ i :: p ->
  a = p \/ (i :: p) `suffix_of` a.
Proof.
  intros Hp. induction d as [|x d IH]; simpl; intros Ha.
  - apply suffix_cons_cases in Ha as [->|Ha]; [by right|]. left.
    by apply (anti_symm suffix).
  - apply suffix_cons_cases in Ha as [->|Ha]; [|by apply IH].
    right. rewrite app_comm_cons. by apply suffix_app_r.
Qed.

Lemma suffix_snoc_last (a d : list nat) i j :
  (a ++ [j]) `suffix_of` (d ++ [i]) -> j = i.
Proof.
  intros [k Hk]. rewrite app_assoc in Hk.
  by apply app_inj_tail in Hk as [_ ->].
Qed.

Section RowMembership.
Variables (cf ih : bool) (t : tree).

Let inBranch (p q : list nat) : Prop :=
  (forall a, p `suffix_of` a -> a `suffix_of` q ->
     cf && filteredOut t a = false)
  /\ (forall a, p `suffix_of` a -> a `suffix_of` q -> a <> q ->
        ih || expanded (nodes t a) = true).

Lemma elem_of_visibleLevel (l : list node) p q :
  Forall (fun c => forall p q,
    q ∈ (visibleBranch cf ih t c p).*1 <->
    exists d m, q = d ++ p /\ getNode c d = Some m /\ inBranch p q) l ->
  forall i0,
    q ∈ (visibleLevel cf ih t l p i0).*1 <->
    exists i c d m, l !! i = Some c /\ q = d ++ (i0 + i) :: p
                    /\ getNode c d = Some m /\ inBranch ((i0 + i) :: p) q.
Proof.
  induction 1 as [|c l Hc Hl IH]; intros i0; cbn [visibleLevel].
  - split; [by intros ?%elem_of_nil|]. by intros (i & c & d & m & ? & _).
  - rewrite fmap_app, elem_of_app, Hc, IH. split.
    + intros [(d & m & -> & Hget & Hin)
             |(i & c' & d & m & Hi & -> & Hget & Hin)].
      * exists 0, c, d, m. by rewrite Nat.add_0_r.
      * exists (S i), c', d, m.
        by replace (i0 + S i) with (S i0 + i) by lia.
    + intros ([|i] & c' & d & m & Hi & -> & Hget & Hin).
      * left. injection Hi as ->. rewrite Nat.add_0_r in *. by exists d, m.
      * right. exists i, c', d, m.
        by replace (S i0 + i) with (i0 + S i) by lia.
Qed.

Lemma elem_of_visibleBranch n : forall p q,
  q ∈ (visibleBranch cf ih t n p).*1 <->
  exists d m, q = d ++ p /\ getNode n d = Some m /\ inBranch p q.
Proof.
  induction n as [n IH] using node_ind'. intros p q.
  rewrite visibleBranch_eq. split.
  - destruct (cf && filteredOut t p) eqn:Hf; [by intros ?%elem_of_nil|].
    rewrite fmap_cons, elem_of_cons. intros [->|Hq].
    + exists [], n. split; [done|]. split; [done|]. split.
      * intros a Hpa Hap. by rewrite (anti_symm suffix _ _ Hap Hpa).
      * intros a Hpa Hap Hne. by destruct Hne; apply (anti_symm suffix).
    + destruct (ih || expanded (nodes t p)) eqn:Hopen;
        [|by apply elem_of_nil in Hq].
      apply (elem_of_visibleLevel (kids n) p q IH 0) in Hq
        as (i & c & d & m & Hi & -> & Hget & Hin1 & Hin2).
      exists (d ++ [i]), m. rewrite <- app_assoc. split; [done|].
      split; [by rewrite getNode_snoc, Hi|]. split.
      * intros a Hpa Hap.
        destruct (suffix_between a d i p Hpa Hap) as [->|Hia]; [done|].
        by apply Hin1.
      * intros a Hpa Hap Hne.
        destruct (suffix_between a d i p Hpa Hap) as [->|Hia]; [done|].
        by apply Hin2.
  - intros (d & m & -> & Hget & Hin1 & Hin2).
    rewrite (Hin1 p) by (done || by apply suffix_app_r).
    rewrite fmap_cons, elem_of_cons.
    destruct d as [|i d _] using rev_ind; [by left|]. right.
    rewrite <- app_assoc in *. simpl in *.
    rewrite (Hin2 p); [|done|by apply suffix_app_r, suffix_cons_r|].
    2:{ intros H. apply (f_equal length) in H. rewrite length_app in H.
        simpl in H. lia. }
    rewrite getNode_snoc in Hget.
    destruct (kids n !! i) as [c|] eqn:Hi; [|done].
    apply (elem_of_visibleLevel (kids n) p _ IH 0).
    exists i, c, d, m. split; [done|]. split; [done|]. split; [done|].
    split.
    + intros a Hia Hap. apply Hin1; [|done].
      etransitivity; [|exact Hia]. by apply suffix_cons_r.
    + intros a Hia Hap Hne. apply Hin2; [|done..].
      etransitivity; [|exact Hia]. by apply suffix_cons_r.
Qed.

End RowMembership.

(** Which nodes are rows. *)
Lemma elem_of_rows ih t q :
  WunderbaumNode.hasChildren (root t) = Some true ->
  q ∈ (rows ih t).*1
  <-> (exists m, getNode (root t) q = Some m) /\ q <> []
      /\ rowVisible ih t q.
Proof.
  intros Hhc. unfold rows. rewrite Hhc.
  rewrite (elem_of_visibleLevel _ ih t (kids (root t)) [] q) by
    (apply Forall_forall; intros c _ p' q'; apply elem_of_visibleBranch).
  split.
  - intros (i & c & d & m & Hi & -> & Hget & Hin1 & Hin2).
    split; [exists m; by rewrite getNode_app; simpl; unfold child;
            rewrite Hi|].
    split; [by destruct d|]. split.
    + intros a Ha Haq. apply Hin1; [|done].
      destruct a as [|j a _] using rev_ind; [done|].
      assert (j = i) as -> by by apply (suffix_snoc_last a d).
      by apply suffix_app_r.
    + intros a Ha Haq Hne. apply Hin2; [|done..].
      destruct a as [|j a _] using rev_ind; [done|].
      assert (j = i) as -> by by apply (suffix_snoc_last a d).
      by apply suffix_app_r.
  - intros ((m & Hget) & Hne & Hv1 & Hv2).
    destruct q as [|i d _] using rev_ind; [done|].
    rewrite getNode_snoc in Hget.
    destruct (kids (root t) !! i) as [c|] eqn:Hi; [|done].
    exists i, c, d, m. split; [done|]. split; [done|]. split; [done|].
    split.
    + intros a Hia Haq. apply Hv1; [|done].
      intros ->. apply suffix_length in Hia. simpl in Hia. lia.
    + intros a Hia Haq Hna. apply Hv2; [|done..].
      intros ->. apply suffix_length in Hia. simpl in Hia. lia.
Qed.

(** X6.  Without a start node, [visitRows] calls the callback exactly on
    the nodes below the system root that the visibility rule lets
    through: every node above them is expanded (unless hidden nodes are
    included) and, where the filter is consulted, neither they nor a node
    above them is hidden by it; the calls come in hierarchical order, and
    no node is called twice. *)
Theorem rows_are_the_visible_nodes ih t q :
  WunderbaumNode.hasChildren (root t) = Some true ->
  (q ∈ rowsDown ih t
   <-> (exists m, getNode (root t) q = Some m) /\ q <> []
       /\ rowVisible ih t q)
  /\ rowsDown ih t `sublist_of` descendants (root t) []
  /\ NoDup (rowsDown ih t).
Proof.
  intros Hhc. rewrite rowsDown_rows. split; [|split].
  - by apply elem_of_rows.
  - unfold rows. rewrite Hhc, descendants_eq. apply visibleLevel_sublist.
    apply Forall_forall. intros c _ p'. apply visibleBranch_sublist.
  - apply NoDup_rows.
Qed.

Lemma rows_are_the_visible_nodes_witness :
  ([0; 0] ∈ rowsDown false (setExpanded [0] true (newTree scenarioRoot))
   <-> (exists m, getNode scenarioRoot [0; 0] = Some m) /\ [0; 0] <> []
       /\ rowVisible false (setExpanded [0] true (newTree scenarioRoot))
            [0; 0])
  /\ rowsDown false (setExpanded [0] true (newTree scenarioRoot))
     `sublist_of` descendants scenarioRoot []
  /\ NoDup (rowsDown false (setExpanded [0] true (newTree scenarioRoot))).
Proof.
  apply (rows_are_the_visible_nodes false
           (setExpanded [0] true (newTree scenarioRoot)) [0; 0]).
  reflexivity.
Defined.

(** ** [visitRows] from a start node *)

Section RowsFrom.
Context {A : Type}.
Variable callback : @rowCallback A.
Variable ih : bool.
Hypothesis callback_goes_on : forall q m s, fst (callback q m s) <> RFalse.
Hypothesis callback_view : forall q m s,
  sameView (fst s) (fst (snd (callback q m s))).

Let step (s : tree * A) (qm : list nat * node) : tree * A :=
  snd (callback qm.1 qm.2 s).

Let cfOf (t : tree) : bool := negb ih && enableFilter t.

Lemma dive_rows t0 n p s1 :
  sameView t0 (fst s1) ->
  exists r2,
    match children n with
    | Some (_ :: _) =>
        if ih || expanded (nodes t0 p)
        then WunderbaumNode.visit (visitRowsInner callback ih) n p false s1
        else (ROther, s1)
    | _ => (ROther, s1)
    end
    = (r2, foldl step s1
             (if ih || expanded (nodes t0 p)
              then visibleLevel (cfOf t0) ih t0 (kids n) p 0
              else []))
    /\ r2 <> RFalse.
Proof.
  intros Hv01. destruct (ih || expanded (nodes t0 p)).
  - rewrite visit_eq. cbv zeta.
    destruct (inner_children callback ih callback_view
                p (kids n)) with (t0 := t0) (i := 0)
      (res := ROther) (s := s1) as (r2 & Hrun & Hr2); [|done|done|].
    { apply Forall_forall. intros c _. by apply inner_visit. }
    unfold kids in *. destruct (children n) as [[|c l']|]; simpl in *.
    + by exists ROther.
    + by exists r2.
    + by exists ROther.
  - exists ROther. by destruct (children n) as [[|c l']|].
Qed.

Lemma siblingsLoop_skip parent n (l : list node) t0 i s :
  sameView t0 (fst s) ->
  cfOf t0 && filteredOut t0 (i :: parent) = false ->
  siblingsLoop callback ih parent (n :: l) i true s
  = (true, false,
     foldl step s (tail (visibleBranch (cfOf t0) ih t0 n (i :: parent))
                   ++ visibleLevel (cfOf t0) ih t0 l parent (S i))).
Proof.
  intros Hv Hshown. cbn [siblingsLoop]. rewrite visibleBranch_eq, foldl_app.
  rewrite (checkFilter_view ih t0 (fst s) Hv).
  unfold checkFilter. fold (cfOf t0).
  pose proof Hv as (Hroot & Hef & Hp).
  destruct (Hp (i :: parent)) as [Hexp Hfo].
  rewrite Hfo, Hshown, Hexp. cbn [tail].
  destruct (dive_rows t0 n (i :: parent) s Hv) as (r2 & -> & Hr2).
  destruct r2; [done|..];
    apply (siblingsLoop_rows callback ih callback_goes_on callback_view);
    (eapply sameView_trans; [exact Hv|];
     apply (foldl_step_view callback callback_view)).
Qed.

Lemma parentLoop_after y : forall t0 s,
  sameView t0 (fst s) ->
  parentLoop callback ih y 1 false s
  = (true, foldl step s (rowsAfter (cfOf t0) ih t0 y)).
Proof.
  induction y as [|i p IH]; intros t0 s Hv; [done|].
  cbn [parentLoop rowsAfter]. rewrite foldl_app.
  pose proof Hv as (Hroot & _).
  unfold nodeAt at 1. rewrite Hroot. fold (nodeAt t0 p).
  replace (i + 1) with (S i) by lia.
  rewrite (siblingsLoop_rows callback ih callback_goes_on callback_view
             p _ t0 (S i) s Hv).
  apply IH. eapply sameView_trans; [exact Hv|].
  apply (foldl_step_view callback callback_view).
Qed.

Lemma parentLoop_start idx parent n t0 s inc :
  sameView t0 (fst s) ->
  kids (nodeAt t0 parent) !! idx = Some n ->
  cfOf t0 && filteredOut t0 (idx :: parent) = false ->
  parentLoop callback ih (idx :: parent) 0 (negb inc) s
  = (true,
     foldl step s
       ((if inc then visibleBranch (cfOf t0) ih t0 n (idx :: parent)
         else tail (visibleBranch (cfOf t0) ih t0 n (idx :: parent)))
        ++ rowsAfter (cfOf t0) ih t0 (idx :: parent))).
Proof.
  intros Hv Hn Hshown. cbn [parentLoop rowsAfter].
  pose proof Hv as (Hroot & _).
  unfold nodeAt at 1. rewrite Hroot. fold (nodeAt t0 parent).
  rewrite Nat.add_0_r, (drop_S _ _ _ Hn).
  rewrite app_assoc, foldl_app.
  assert (siblingsLoop callback ih parent
            (n :: drop (S idx) (kids (nodeAt t0 parent))) idx (negb inc) s
          = (true, false,
             foldl step s
               ((if inc then visibleBranch (cfOf t0) ih t0 n (idx :: parent)
                 else tail (visibleBranch (cfOf t0) ih t0 n (idx :: parent)))
                ++ visibleLevel (cfOf t0) ih t0
                     (drop (S idx) (kids (nodeAt t0 parent))) parent (S idx))))
    as ->.
  { destruct inc; simpl negb.
    - by rewrite (siblingsLoop_rows callback ih callback_goes_on
                    callback_view parent _ t0 idx s Hv).
    - by apply siblingsLoop_skip. }
  apply parentLoop_after. eapply sameView_trans; [exact Hv|].
  apply (foldl_step_view callback callback_view).
Qed.

End RowsFrom.

Lemma visibleLevel_app cf ih t (l1 l2 : list node) p : forall i,
  visibleLevel cf ih t (l1 ++ l2) p i
  = visibleLevel cf ih t l1 p i
    ++ visibleLevel cf ih t l2 p (i + length l1).
Proof.
  induction l1 as [|c l1 IH]; intros i; simpl.
  - by rewrite Nat.add_0_r.
  - rewrite IH, <- app_assoc. do 3 f_equal. lia.
Qed.

Lemma visibleLevel_split cf ih t (l : list node) p i n :
  l !! i = Some n ->
  visibleLevel cf ih t l p 0
  = visibleLevel cf ih t (take i l) p 0
    ++ visibleBranch cf ih t n (i :: p)
    ++ visibleLevel cf ih t (drop (S i) l) p (S i).
Proof.
  intros Hi. rewrite <- (take_drop_middle l i n Hi) at 1.
  rewrite visibleLevel_app. cbn [visibleLevel].
  rewrite length_take_le by (apply lookup_lt_Some in Hi; lia). done.
Qed.

Lemma rowVisible_parent ih t i p :
  p <> [] -> rowVisible ih t (i :: p) ->
  rowVisible ih t p
  /\ negb ih && enableFilter t && filteredOut t p = false
  /\ ih || expanded (nodes t p) = true.
Proof.
  intros Hp [Hv1 Hv2]. split; [split|split].
  - intros a Ha Hap. apply Hv1; [done|]. by apply suffix_cons_r.
  - intros a Ha Hap Hne. apply Hv2; [done|by apply suffix_cons_r|].
    intros ->. apply suffix_length in Hap. simpl in Hap. lia.
  - apply Hv1; [done|]. by apply suffix_cons_r.
  - apply Hv2; [done|by apply suffix_cons_r|].
    intros H. apply (f_equal length) in H. simpl in H. lia.
Qed.

(** The rows from a visible node on are the end of the display order. *)
Lemma rows_from_suffix ih t x : forall n,
  WunderbaumNode.hasChildren (root t) = Some true ->
  getNode (root t) x = Some n -> x <> [] -> rowVisible ih t x ->
  exists pre,
    rows ih t
    = pre ++ visibleBranch (negb ih && enableFilter t) ih t n x
          ++ rowsAfter (negb ih && enableFilter t) ih t x.
Proof.
  induction x as [|i p IH]; intros n Hhc Hget Hne Hvis; [done|].
  simpl in Hget. destruct (getNode (root t) p) as [pn|] eqn:Hp; [|done].
  unfold child in Hget. cbn [rowsAfter].
  assert (nodeAt t p = pn) as -> by (unfold nodeAt; by rewrite Hp).
  destruct p as [|j g].
  - injection Hp as <-. unfold rows. rewrite Hhc.
    rewrite (visibleLevel_split _ _ _ _ _ i n Hget).
    eexists. by rewrite app_nil_r.
  - destruct (rowVisible_parent ih t i (j :: g)) as (Hvp & Hfo & Hopen);
      [done..|].
    destruct (IH pn Hhc eq_refl) as (pre & ->); [done..|].
    rewrite (visibleBranch_eq _ _ _ pn), Hfo, Hopen.
    rewrite (visibleLevel_split _ _ _ _ _ i n Hget).
    exists (pre ++ (j :: g, pn)
                :: visibleLevel (negb ih && enableFilter t) ih t
                     (take i (kids pn)) (j :: g) 0).
    rewrite <- !app_assoc. simpl. by rewrite <- !app_assoc.
Qed.

Lemma foldl_collectRows t (l : list (list nat * node)) : forall acc,
  foldl (fun s qm => snd (collectRows qm.1 qm.2 s)) (t, acc) l
  = (t, acc ++ l.*1).
Proof.
  induction l as [|[q m] l IH]; intros acc; simpl.
  - by rewrite app_nil_r.
  - rewrite IH. by rewrite <- app_assoc.
Qed.

Lemma NoDup_split_unique {X} (x : X) (l1 : list X) : forall l2 k1 k2,
  NoDup (l1 ++ x :: l2) -> l1 ++ x :: l2 = k1 ++ x :: k2 -> l2 = k2.
Proof.
  induction l1 as [|a l1 IH]; intros l2 k1 k2 Hnd Heq.
  - destruct k1 as [|b k1]; simpl in *; [by injection Heq|].
    injection Heq as <- ->. apply NoDup_cons in Hnd as [Hx _].
    destruct Hx. apply elem_of_app. right. left.
  - simpl in *. apply NoDup_cons in Hnd as [Ha Hnd].
    destruct k1 as [|b k1]; simpl in *.
    + injection Heq as -> _. destruct Ha. apply elem_of_app. right. left.
    + injection Heq as _ Heq. by apply (IH l2 k1 k2).
Qed.

(** X7.  [visitRows] with a start node that is a row calls the callback on
    that row and on the rows that follow it in display order, and on none
    before it; with [includeSelf: false] on the rows that follow it
    only. *)
Theorem rows_from_start ih t x pre post :
  rowsDown ih t = pre ++ x :: post ->
  rowsFrom ih true t x = x :: post /\ rowsFrom ih false t x = post.
Proof.
  intros Hrows. rewrite rowsDown_rows in Hrows.
  assert (WunderbaumNode.hasChildren (root t) = Some true) as Hhc.
  { unfold rows in Hrows.
    destruct (WunderbaumNode.hasChildren (root t)) as [[|]|];
      [done|by destruct pre..]. }
  assert (x ∈ (rows ih t).*1) as Hx.
  { rewrite Hrows. apply elem_of_app. right. left. }
  apply (elem_of_rows ih t x Hhc) in Hx as ((n & Hget) & Hne & Hvis).
  destruct (rows_from_suffix ih t x n Hhc Hget Hne Hvis) as (pre' & Hsplit).
  assert (negb ih && enableFilter t && filteredOut t x = false) as Hfo.
  { destruct Hvis as [Hv1 _]. by apply Hv1. }
  pose proof (NoDup_rows ih t) as Hnd.
  rewrite visibleBranch_eq, Hfo in Hsplit.
  set (rest := if ih || expanded (nodes t x)
               then visibleLevel (negb ih && enableFilter t) ih t (kids n) x 0
               else []) in *.
  assert (post = (rest ++ rowsAfter (negb ih && enableFilter t) ih t x).*1)
    as ->.
  { rewrite Hsplit in Hnd, Hrows.
    rewrite <- app_comm_cons, fmap_app, fmap_cons in Hnd, Hrows.
    cbn [fst] in Hnd, Hrows.
    symmetry. by eapply NoDup_split_unique. }
  destruct x as [|idx parent]; [done|].
  assert (kids (nodeAt t parent) !! idx = Some n) as Hn.
  { simpl in Hget. unfold nodeAt.
    by destruct (getNode (root t) parent). }
  assert (forall inc,
    rowsFrom ih inc t (idx :: parent)
    = ((if inc
        then visibleBranch (negb ih && enableFilter t) ih t n (idx :: parent)
        else tail (visibleBranch (negb ih && enableFilter t) ih t n
                     (idx :: parent)))
       ++ rowsAfter (negb ih && enableFilter t) ih t (idx :: parent)).*1)
    as Hfrom.
  { intros inc. unfold rowsFrom, visitRows. cbn [fst]. rewrite Hhc.
    cbn [reverse startOpts start default includeHidden includeSelf
         from_option id].
    rewrite (parentLoop_start collectRows ih) with (t0 := t) (n := n);
      [|by intros q m [t0 l0]|by intros q m [t0 l0]|done..].
    by rewrite foldl_collectRows. }
  rewrite !Hfrom, visibleBranch_eq, Hfo. fold rest. done.
Qed.

Lemma rows_from_start_witness :
  rowsFrom false true (setExpanded [0] true (newTree scenarioRoot)) [1; 0]
  = [1; 0] :: [[1]]
  /\ rowsFrom false false (setExpanded [0] true (newTree scenarioRoot))
       [1; 0]
     = [[1]].
Proof.
  apply (rows_from_start false (setExpanded [0] true (newTree scenarioRoot))
           [1; 0] [[0]; [0; 0]] [[1]]).
  reflexivity.
Defined.

(** ** More on [renumber], and [updateViewport] *)






Lemma renumber_returned opts t modified t' :
  renumber opts t = Returned (modified, t') ->
  exists start_ end_ c,
    startIdx opts = Some start_ /\ endIdx opts = Some end_
    /\ kids (root t) !! 1 = Some c.
Proof.
  unfold renumber. intros H.
  destruct (startIdx opts) as [s|], (endIdx opts) as [e|]; try done.
  destruct (kids (root t) !! 1) as [c|]; [|done]. by exists s, e, c.
Qed.












(** ** What a filter call does to the tree as a whole *)


Section FilterCall.
Context {R : Runtime}.







End FilterCall.





(** ** A filter call does not depend on the filter state it finds *)

Section VisitSim.
Context {St : Type}.
Variable top : node.
Variable cb : list nat -> node -> St -> ctl * St.
Variable Rel : St -> St -> Prop.
Hypothesis cb_sim : forall q m s1 s2,
  getNode top q = Some m -> Rel s1 s2 ->
  fst (cb q m s1) = fst (cb q m s2)
  /\ Rel (snd (cb q m s1)) (snd (cb q m s2)).




End VisitSim.

Section FilterSim.
Variables (filter : nodeFilter) (branchMode leavesOnly : bool).
Variable opts : filterOptions.









End FilterSim.

Section FilterIndependence.
Context {R : Runtime}.





End FilterIndependence.



(** ** Auto-expansion *)



Section AutoExpand.
Variables (filter : nodeFilter) (leavesOnly : bool).
Variable opts : filterOptions.
Hypothesis auto_on : autoExpand opts = true.
Hypothesis no_branch : forall q m, answer filter q m <> FBranch.





End AutoExpand.

Section AutoExpandCall.
Context {R : Runtime}.



End AutoExpandCall.


(** ** Expansion state across a filter call and [clearFilter] *)



Section Expansion.
Variables (filter : nodeFilter) (branchMode leavesOnly : bool).
Variable opts : filterOptions.








End Expansion.




Section ExpansionCall.
Context {R : Runtime}.




End ExpansionCall.





(** ** The active row *)




















Section ActiveRow.
Context {R : Runtime}.




End ActiveRow.



(** ** What the text filter matches *)

Section TextFilter.
Context {R : Runtime}.

Lemma charsInOrder_skips g : forall query text,
  charsInOrder query text -> charsInOrder query (g ++ text).
Proof.
  induction g as [|x g IH]; intros query text H; [done|].
  simpl. apply in_order_skip. by apply IH.
Qed.

Lemma charsInOrder_tail c query text :
  charsInOrder (c :: query) text -> charsInOrder query text.
Proof.
  intros H. remember (c :: query) as cq eqn:E. revert c query E.
  induction H as [text|q x text H IH|c' q x text Hx H IH];
    intros c query E; [done|..].
  - apply in_order_skip. by apply (IH c).
  - injection E as -> ->. by apply in_order_skip.
Qed.

Lemma span_spec p l g r :
  span p l = (g, r) ->
  l = g ++ r /\ match r with [] => True | x :: _ => p x = false end.
Proof.
  revert g r. induction l as [|c l IH]; intros g r; simpl.
  - by intros [= <- <-].
  - destruct (p c) eqn:Hc.
    + destruct (span p l) as [g' r'] eqn:E. intros [= <- <-].
      destruct (IH _ _ eq_refl) as [-> Hr]. done.
    + by intros [= <- <-].
Qed.

Lemma matchGroups_in_order query : forall text gs rest,
  matchGroups query text = Some (gs, rest) -> charsInOrder query text.
Proof.
  induction query as [|c query IH]; intros text gs rest; simpl.
  { intros _. constructor. }
  destruct (span _ text) as [g r] eqn:E.
  destruct (span_spec _ _ _ _ E) as [-> Hr].
  destruct r as [|x r']; [done|].
  destruct (matchGroups query r') as [[gs' rest']|] eqn:E'; [|done].
  intros _. apply charsInOrder_skips. apply in_order_take.
  - by apply negb_false_iff in Hr.
  - by apply (IH r' gs' rest').
Qed.

Lemma charsInOrder_first c query : forall text,
  charsInOrder (c :: query) text ->
  exists g x r',
    span (fun x => negb (sameChar x c)) text = (g, x :: r')
    /\ charsInOrder query r'.
Proof.
  induction text as [|y text IH]; intros H; [inversion H|].
  simpl. destruct (sameChar y c) eqn:Hy; simpl.
  - exists [], y, text. split; [done|].
    inversion H as [|q x t H'|c' q x t Hx H']; subst; [|done].
    by apply (charsInOrder_tail c).
  - inversion H as [|q x t H'|c' q x t Hx H']; subst; [|congruence].
    destruct (IH H') as (g & x & r' & -> & Hr). by exists (y :: g), x, r'.
Qed.

Lemma in_order_matchGroups query : forall text,
  charsInOrder query text -> is_Some (matchGroups query text).
Proof.
  induction query as [|c query IH]; intros text H; simpl; [by eexists|].
  destruct (charsInOrder_first c query text H) as (g & x & r' & -> & Hr).
  destruct (IH r' Hr) as [[gs rest] ->]. by eexists.
Qed.

Lemma fuzzyExec_in_order query : forall text,
  is_Some (fuzzyExec query text) <-> charsInOrder query text.
Proof.
  induction text as [|x text IH]; simpl.
  - destruct (matchGroups query []) as [[gs rest]|] eqn:E.
    + split; [intros _; by apply (matchGroups_in_order _ _ gs rest)|].
      by eexists.
    + split; [by intros [? [=]]|]. intros H.
      apply in_order_matchGroups in H as [? H]. congruence.
  - destruct (matchGroups query (x :: text)) as [[gs rest]|] eqn:E.
    + split; [intros _; by apply (matchGroups_in_order _ _ gs rest)|].
      by eexists.
    + rewrite IH. split; [by apply in_order_skip|]. intros H.
      inversion H as [t|q y t H'|c q y t Hy H']; subst; [constructor|done|].
      apply in_order_matchGroups in H as [? H]. congruence.
Qed.

Lemma startsWith_spec query : forall text,
  startsWith query text = true
  <-> exists piece after,
        text = piece ++ after
        /\ Forall2 (fun q c => sameChar q c = true) query piece.
Proof.
  induction query as [|q query IH]; intros text.
  - destruct text; simpl; (split; [intros _|done]);
      eexists [], _; by split; [|constructor].
  - destruct text as [|c text]; simpl.
    + split; [done|]. intros (piece & after & H & HF).
      inversion HF; subst. done.
    + rewrite andb_true_iff, IH. split.
      * intros [Hc (piece & after & -> & HF)].
        exists (c :: piece), after. split; [done|]. by constructor.
      * intros (piece & after & H & HF).
        inversion HF as [|q' c' query' piece' Hc HF']; subst.
        injection H as -> ->. split; [done|]. by exists piece', after.
Qed.

Lemma literalExec_occurs query : forall text,
  is_Some (literalExec query text) <-> occursIn query text.
Proof.
  induction text as [|x text IH]; simpl.
  - destruct (startsWith query []) eqn:E.
    + split; [intros _|by eexists].
      apply startsWith_spec in E as (piece & after & H & HF).
      by exists [], piece, after.
    + split; [by intros [? [=]]|].
      intros (before & piece & after & H & HF).
      destruct before; [|done]. simpl in H.
      assert (startsWith query [] = true) as E'
        by (apply startsWith_spec; by exists piece, after).
      congruence.
  - destruct (startsWith query (x :: text)) eqn:E.
    + split; [intros _|by eexists].
      apply startsWith_spec in E as (piece & after & H & HF).
      by exists [], piece, after.
    + rewrite IH. split.
      * intros (before & piece & after & -> & HF).
        by exists (x :: before), piece, after.
      * intros (before & piece & after & H & HF).
        destruct before as [|y before].
        { assert (startsWith query (x :: text) = true) as E'
            by (apply startsWith_spec; by exists piece, after).
          congruence. }
        injection H as -> ->. by exists before, piece, after.
Qed.

(** X23.  What a filter string matches.  The filter built from a string
    answers [true] or [false] only.  It accepts a node exactly if the
    node has a title and, with [fuzzy], the characters of the string occur
    in the title text in this order, ignoring case, with anything before,
    between and after them; without [fuzzy], the string occurs in the
    title text as one piece, ignoring case.  The title text is the title
    itself with [escapeTitles], and else the text extracted from it.
    Whether highlighting is on makes no difference to the answer. *)
Theorem text_filter_matches (esc : bool) opts query p n :
  let text := if esc then title n else extractHtmlText (title n) in
  let res := answer (compileFilter esc opts (FilterText query)) p n in
  (res = FTrue \/ res = FFalse)
  /\ (res = FTrue
      <-> falsyString (title n) = false
          /\ if fuzzy opts then charsInOrder query text
             else occursIn query text).
Proof.
  intros text res. subst res.
  unfold answer, compileFilter, textFilter. fold text.
  destruct (falsyString (title n)); [split; [by right|]; by split; [|intros []]|].
  destruct (fuzzy opts) eqn:Hf.
  - pose proof (fuzzyExec_in_order query text) as H.
    destruct (fuzzyExec query text) as [matches|].
    + assert (charsInOrder query text) as Hin by (apply H; by eexists).
      destruct (highlight opts), esc; cbn [fst]; (split; [by left|done]).
    + cbn [fst]. split; [by right|]. split; [done|].
      intros [_ Hin]. apply H in Hin as [? [=]].
  - pose proof (literalExec_occurs query text) as H.
    destruct (literalExec query text) as [matches|].
    + assert (occursIn query text) as Hin by (apply H; by eexists).
      destruct (highlight opts), esc; cbn [fst]; (split; [by left|done]).
    + cbn [fst]. split; [by right|]. split; [done|].
      intros [_ Hin]. apply H in Hin as [? [=]].
Qed.

End TextFilter.
